(** * Email form: tag input, draft persistence and submission

    A shallow embedding of [src/pages/private/home/index.tsx]:
    the [TagInput] widget (recipient chips), the local-storage helpers
    [getStoredData] / [setStoredData] / [clearStoredData], and the
    [EmailForm] controller (default values, [onSubmit], the Send and
    Clear buttons and the mutation they drive). *)

From Stdlib Require Import String Ascii NArith List Lia Bool DecimalString.
From stdpp Require Import base option list gmap.

Local Open Scope N_scope.

(** ** JavaScript strings

    A JavaScript string is a sequence of UTF-16 code units.  A code unit
    is modelled as an [N]; string equality ([===], [Array.includes]) is
    equality of the sequences. *)

Abbreviation char := N (only parsing).
Abbreviation jsstring := (list N) (only parsing).

Fixpoint js (s : string) : jsstring :=
  match s with
  | EmptyString => []
  | String a s' => N_of_ascii a :: js s'
  end.

(** [\s] in a regular expression and the characters stripped by
    [String.prototype.trim]: WhiteSpace and LineTerminator. *)
Definition is_space (c : char) : bool :=
  (9 <=? c) && (c <=? 13)          (* \t \n \v \f \r *)
  || (c =? 32)                      (* space *)
  || (c =? 160)                     (* no-break space *)
  || (c =? 5760)                    (* U+1680 *)
  || (8192 <=? c) && (c <=? 8202)   (* U+2000 .. U+200A *)
  || (c =? 8232) || (c =? 8233)     (* U+2028, U+2029 *)
  || (c =? 8239)                    (* U+202F *)
  || (c =? 8287)                    (* U+205F *)
  || (c =? 12288)                   (* U+3000 *)
  || (c =? 65279).                  (* U+FEFF *)

Fixpoint trimStart (s : jsstring) : jsstring :=
  match s with
  | [] => []
  | c :: s' => if is_space c then trimStart s' else s
  end.

Definition trimEnd (s : jsstring) : jsstring := rev (trimStart (rev s)).

(** [s.trim()] *)
Definition trim (s : jsstring) : jsstring := trimEnd (trimStart s).

(** Truthiness of a string: the empty string is the only falsy one. *)
Definition str_truthy (s : jsstring) : bool :=
  match s with [] => false | _ => true end.

(** [arr.includes(x)] on an array of strings. *)
Definition includes (arr : list jsstring) (x : jsstring) : bool :=
  bool_decide (x ∈ arr).

(** ** Regular expressions

    The two regular expressions of the source use character classes,
    concatenation and [+] only; they have no flags, so a class matches
    one code unit.  Matching is by derivatives. *)
Module Regex.

Inductive regex : Type :=
| Void : regex
| Eps : regex
| Class : (char -> bool) -> regex
| Cat : regex -> regex -> regex
| Alt : regex -> regex -> regex
| Star : regex -> regex.

(** [r+] *)
Definition Plus (r : regex) : regex := Cat r (Star r).

Fixpoint nullable (r : regex) : bool :=
  match r with
  | Void => false
  | Eps => true
  | Class _ => false
  | Cat r1 r2 => nullable r1 && nullable r2
  | Alt r1 r2 => nullable r1 || nullable r2
  | Star _ => true
  end.

Fixpoint deriv (c : char) (r : regex) : regex :=
  match r with
  | Void => Void
  | Eps => Void
  | Class p => if p c then Eps else Void
  | Cat r1 r2 =>
      if nullable r1 then Alt (Cat (deriv c r1) r2) (deriv c r2)
      else Cat (deriv c r1) r2
  | Alt r1 r2 => Alt (deriv c r1) (deriv c r2)
  | Star r1 => Cat (deriv c r1) (Star r1)
  end.

(** [/^r$/.test(s)]: the whole string is in the language of [r]. *)
Fixpoint test_anchored (r : regex) (s : jsstring) : bool :=
  match s with
  | [] => nullable r
  | c :: s' => test_anchored (deriv c r) s'
  end.

(** The language of a regular expression. *)
Inductive lang : regex -> jsstring -> Prop :=
| lang_eps : lang Eps []
| lang_class p c : p c = true -> lang (Class p) [c]
| lang_cat r1 r2 s1 s2 : lang r1 s1 -> lang r2 s2 -> lang (Cat r1 r2) (s1 ++ s2)
| lang_alt_l r1 r2 s : lang r1 s -> lang (Alt r1 r2) s
| lang_alt_r r1 r2 s : lang r2 s -> lang (Alt r1 r2) s
| lang_star_nil r : lang (Star r) []
| lang_star_cons r s1 s2 : lang r s1 -> lang (Star r) s2 -> lang (Star r) (s1 ++ s2).

End Regex.

(** [[^\s@]] *)
Definition not_space_at (c : char) : bool := negb (is_space c || (c =? 64)).
(** [@] and [\.] *)
Definition is_at (c : char) : bool := c =? 64.
Definition is_dot (c : char) : bool := c =? 46.

(** [/^[^\s@]+@[^\s@]+\.[^\s@]+$/] *)
Definition email_re : Regex.regex :=
  Regex.Cat (Regex.Plus (Regex.Class not_space_at))
    (Regex.Cat (Regex.Class is_at)
       (Regex.Cat (Regex.Plus (Regex.Class not_space_at))
          (Regex.Cat (Regex.Class is_dot)
             (Regex.Plus (Regex.Class not_space_at))))).

(** [isValidEmail]: the pattern tested on the trimmed argument. *)
Definition isValidEmail (email : jsstring) : bool :=
  Regex.test_anchored email_re (trim email).

(** A non-empty run of code units other than white space and [@]. *)
Definition run_of (s : list N) : Prop :=
  s <> [] /\ Forall (fun c => not_space_at c = true) s.

(** [local@domain.tld] *)
Definition email_shape (s : list N) : Prop :=
  exists a b c, s = a ++ 64 :: b ++ 46 :: c /\ run_of a /\ run_of b /\ run_of c.

(** [[,\s\n;]]: the delimiter class of [handlePaste]. *)
Definition is_delim (c : char) : bool :=
  (c =? 44) || is_space c || (c =? 10) || (c =? 59).

(** [s.split(/[,\s\n;]+/)]: the pieces between maximal runs of
    delimiters.  The pattern never matches the empty string, so the
    result always has at least one piece, and a delimiter at either end
    of [s] gives an empty first or last piece.  [cur] holds the piece
    being read, reversed; [in_run] tells that the previous code unit was
    a delimiter. *)
Fixpoint split_go (s : jsstring) (cur : jsstring) (in_run : bool)
  : list jsstring :=
  match s with
  | [] => [rev cur]
  | c :: s' =>
      if is_delim c then
        if in_run then split_go s' [] true
        else rev cur :: split_go s' [] true
      else split_go s' (c :: cur) false
  end.

Definition split_delims (s : jsstring) : list jsstring := split_go s [] false.

(** ** The tag input widget *)

(** The widget's React state ([useState]) and what it reported through
    the [onChange] callback, oldest call first. *)
Record TagInput : Type := mkTagInput {
  inputValue : jsstring;
  tags : list jsstring;
  onChange_calls : list (list jsstring);
}.

(** [setTags(newTags); onChange(newTags)] *)
Definition commit (w : TagInput) (newTags : list jsstring) : TagInput :=
  {| inputValue := inputValue w;
     tags := newTags;
     onChange_calls := onChange_calls w ++ [newTags] |}.

Definition setInputValue (w : TagInput) (v : jsstring) : TagInput :=
  {| inputValue := v; tags := tags w; onChange_calls := onChange_calls w |}.

Definition addTag (w : TagInput) (email : jsstring) : TagInput :=
  let trimmedEmail := trim email in
  if str_truthy trimmedEmail
     && isValidEmail trimmedEmail
     && negb (includes (tags w) trimmedEmail)
  then
    let newTags := tags w ++ [trimmedEmail] in
    setInputValue (commit w newTags) []
  else w.

(** [arr.filter((_, index) => p(index))], counting from [i]. *)
Fixpoint filter_index {A} (p : nat -> bool) (i : nat) (arr : list A) : list A :=
  match arr with
  | [] => []
  | x :: arr' =>
      if p i then x :: filter_index p (S i) arr' else filter_index p (S i) arr'
  end.

Definition removeTag (w : TagInput) (indexToRemove : nat) : TagInput :=
  let newTags :=
    filter_index (fun index => negb (index =? indexToRemove)%nat) 0%nat (tags w) in
  commit w newTags.

Definition key_Enter : jsstring := js "Enter".
Definition key_Backspace : jsstring := js "Backspace".

Definition handleKeyDown (w : TagInput) (key : jsstring) : TagInput :=
  if bool_decide (key = key_Enter) || bool_decide (key = js ",")
     || bool_decide (key = js " ")
  then addTag w (inputValue w)
  else if bool_decide (key = key_Backspace)
          && negb (str_truthy (inputValue w))
          && (0 <? length (tags w))%nat
  then removeTag w (length (tags w) - 1)%nat
  else w.

Definition handlePaste (w : TagInput) (pastedText : jsstring) : TagInput :=
  let emails :=
    List.filter (fun email => str_truthy email && isValidEmail email)
      (List.map trim (split_delims pastedText)) in
  let uniqueEmails :=
    List.filter (fun email => negb (includes (tags w) email)) emails in
  if (0 <? length uniqueEmails)%nat then
    let newTags := tags w ++ uniqueEmails in
    setInputValue (commit w newTags) []
  else w.

Definition handleBlur (w : TagInput) : TagInput :=
  if str_truthy (trim (inputValue w)) then addTag w (inputValue w) else w.

Definition widget (ts : list jsstring) : TagInput :=
  {| inputValue := []; tags := ts; onChange_calls := [] |}.

(** ** JSON

    The values [JSON.parse] can return and [JSON.stringify] can print.
    A number keeps its literal: its numeric value is read only to tell
    whether it is zero ([num_is_zero]).  An object is the list of its
    members in source order; a repeated key is resolved by [prop], which
    reads the last member (as [JSON.parse] keeps the last value). *)
Module Json.

#[warnings="-register-all"]
Inductive value : Type :=
| Null : value
| Bool : bool -> value
| Num : jsstring -> value
| Str : jsstring -> value
| Arr : list value -> value
| Obj : list (jsstring * value) -> value.

(** *** [JSON.stringify] *)

Definition hexdigit (d : N) : char := if d <? 10 then 48 + d else 87 + d.

Definition hex4 (c : char) : jsstring :=
  [hexdigit (c / 4096 mod 16); hexdigit (c / 256 mod 16);
   hexdigit (c / 16 mod 16); hexdigit (c mod 16)].

Definition unicode_escape (c : char) : jsstring := 92 :: 117 :: hex4 c.

Definition is_high_surrogate (c : char) : bool := (55296 <=? c) && (c <=? 56319).
Definition is_low_surrogate (c : char) : bool := (56320 <=? c) && (c <=? 57343).

(** One code unit that is not part of a surrogate pair. *)
Definition escape_char (c : char) : jsstring :=
  if c =? 8 then [92; 98]
  else if c =? 9 then [92; 116]
  else if c =? 10 then [92; 110]
  else if c =? 12 then [92; 102]
  else if c =? 13 then [92; 114]
  else if c =? 34 then [92; 34]
  else if c =? 92 then [92; 92]
  else if c <? 32 then unicode_escape c
  else if is_high_surrogate c || is_low_surrogate c then unicode_escape c
  else [c].

(** The characters of a quoted string: a well-formed surrogate pair is
    copied, a lone surrogate is escaped. *)
Fixpoint quote_chars (s : jsstring) : jsstring :=
  match s with
  | [] => []
  | c :: s' =>
      if is_high_surrogate c then
        match s' with
        | d :: s'' =>
            if is_low_surrogate d then c :: d :: quote_chars s''
            else unicode_escape c ++ quote_chars s'
        | [] => unicode_escape c
        end
      else escape_char c ++ quote_chars s'
  end.

Definition quote (s : jsstring) : jsstring := 34 :: quote_chars s ++ [34].

Fixpoint stringify (v : value) : jsstring :=
  match v with
  | Null => js "null"
  | Bool true => js "true"
  | Bool false => js "false"
  | Num lexeme => lexeme
  | Str s => quote s
  | Arr vs =>
      let fix elements (vs : list value) : jsstring :=
        match vs with
        | [] => []
        | v :: vs' =>
            match vs' with
            | [] => stringify v
            | _ :: _ => stringify v ++ 44 :: elements vs'
            end
        end in
      91 :: elements vs ++ [93]
  | Obj kvs =>
      let fix members (kvs : list (jsstring * value)) : jsstring :=
        match kvs with
        | [] => []
        | (k, v) :: kvs' =>
            match kvs' with
            | [] => quote k ++ 58 :: stringify v
            | _ :: _ => quote k ++ 58 :: stringify v ++ 44 :: members kvs'
            end
        end in
      123 :: members kvs ++ [125]
  end.

(** *** [JSON.parse] *)

Definition is_ws (c : char) : bool :=
  (c =? 32) || (c =? 9) || (c =? 10) || (c =? 13).

Fixpoint skip_ws (s : jsstring) : jsstring :=
  match s with
  | [] => []
  | c :: s' => if is_ws c then skip_ws s' else s
  end.

Definition is_digit (c : char) : bool := (48 <=? c) && (c <=? 57).

Definition hexval (c : char) : option N :=
  if is_digit c then Some (c - 48)
  else if (97 <=? c) && (c <=? 102) then Some (c - 87)
  else if (65 <=? c) && (c <=? 70) then Some (c - 55)
  else None.

Definition unhex4 (a b c d : char) : option char :=
  match hexval a, hexval b, hexval c, hexval d with
  | Some x, Some y, Some z, Some w => Some (((x * 16 + y) * 16 + z) * 16 + w)
  | _, _, _, _ => None
  end.

(** The character after a backslash, [u] apart. *)
Definition unescape (e : char) : option char :=
  if e =? 34 then Some 34
  else if e =? 92 then Some 92
  else if e =? 47 then Some 47
  else if e =? 98 then Some 8
  else if e =? 102 then Some 12
  else if e =? 110 then Some 10
  else if e =? 114 then Some 13
  else if e =? 116 then Some 9
  else None.

(** The characters of a string literal up to its closing quote, and
    what follows the quote. *)
Fixpoint parse_chars (s : jsstring) : option (jsstring * jsstring) :=
  match s with
  | [] => None
  | c :: s' =>
      if c =? 34 then Some ([], s')
      else if c =? 92 then
        match s' with
        | [] => None
        | e :: s'' =>
            if e =? 117 then
              match s'' with
              | h1 :: h2 :: h3 :: h4 :: s3 =>
                  match unhex4 h1 h2 h3 h4, parse_chars s3 with
                  | Some u, Some (str, rest) => Some (u :: str, rest)
                  | _, _ => None
                  end
              | _ => None
              end
            else
              match unescape e, parse_chars s'' with
              | Some ch, Some (str, rest) => Some (ch :: str, rest)
              | _, _ => None
              end
        end
      else if c <? 32 then None
      else
        match parse_chars s' with
        | Some (str, rest) => Some (c :: str, rest)
        | None => None
        end
  end.

Fixpoint span_digits (s : jsstring) : jsstring * jsstring :=
  match s with
  | [] => ([], [])
  | c :: s' =>
      if is_digit c then let (ds, rest) := span_digits s' in (c :: ds, rest)
      else ([], s)
  end.

(** An optional minus sign, then [0] or a digit [1]-[9] and more digits. *)
Definition parse_int (s : jsstring) : option (jsstring * jsstring) :=
  let (sign, s1) :=
    match s with
    | c :: s' => if c =? 45 then ([c], s') else ([], s)
    | [] => ([], s)
    end in
  match s1 with
  | [] => None
  | c :: s2 =>
      if c =? 48 then Some (sign ++ [c], s2)
      else if is_digit c then
        let (ds, rest) := span_digits s2 in Some (sign ++ c :: ds, rest)
      else None
  end.

(** An optional fraction: a dot and at least one digit. *)
Definition parse_frac (s : jsstring) : option (jsstring * jsstring) :=
  match s with
  | c :: s1 =>
      if c =? 46 then
        match span_digits s1 with
        | ([], _) => None
        | (ds, rest) => Some (c :: ds, rest)
        end
      else Some ([], s)
  | [] => Some ([], s)
  end.

(** An optional exponent: [e] or [E], an optional sign, at least one digit. *)
Definition parse_exp (s : jsstring) : option (jsstring * jsstring) :=
  match s with
  | c :: s1 =>
      if (c =? 101) || (c =? 69) then
        let (sign, s2) :=
          match s1 with
          | d :: s' => if (d =? 43) || (d =? 45) then ([d], s') else ([], s1)
          | [] => ([], s1)
          end in
        match span_digits s2 with
        | ([], _) => None
        | (ds, rest) => Some (c :: sign ++ ds, rest)
        end
      else Some ([], s)
  | [] => Some ([], s)
  end.

Definition parse_number (s : jsstring) : option (jsstring * jsstring) :=
  match parse_int s with
  | Some (i, s1) =>
      match parse_frac s1 with
      | Some (f, s2) =>
          match parse_exp s2 with
          | Some (e, s3) => Some (i ++ f ++ e, s3)
          | None => None
          end
      | None => None
      end
  | None => None
  end.

(** [s] starts with [lit]: what follows it. *)
Fixpoint strip_prefix (lit s : jsstring) : option jsstring :=
  match lit, s with
  | [], _ => Some s
  | a :: lit', b :: s' => if a =? b then strip_prefix lit' s' else None
  | _ :: _, [] => None
  end.

(** Recursive descent; every call to a sub-parser spends one unit of
    [fuel].  [parse_elements] reads the elements of an array and its
    closing bracket, [parse_members] the members of an object and its
    closing brace. *)
Fixpoint parse_value (fuel : nat) (s : jsstring) {struct fuel}
  : option (value * jsstring) :=
  match fuel with
  | O => None
  | S f =>
      match skip_ws s with
      | [] => None
      | c :: s1 =>
          if c =? 123 then
            match skip_ws s1 with
            | d :: s2 =>
                if d =? 125 then Some (Obj [], s2)
                else
                  match parse_members f s1 with
                  | Some (kvs, rest) => Some (Obj kvs, rest)
                  | None => None
                  end
            | [] => None
            end
          else if c =? 91 then
            match skip_ws s1 with
            | d :: s2 =>
                if d =? 93 then Some (Arr [], s2)
                else
                  match parse_elements f s1 with
                  | Some (vs, rest) => Some (Arr vs, rest)
                  | None => None
                  end
            | [] => None
            end
          else if c =? 34 then
            match parse_chars s1 with
            | Some (str, rest) => Some (Str str, rest)
            | None => None
            end
          else if c =? 110 then
            match strip_prefix (js "ull") s1 with
            | Some rest => Some (Null, rest)
            | None => None
            end
          else if c =? 116 then
            match strip_prefix (js "rue") s1 with
            | Some rest => Some (Bool true, rest)
            | None => None
            end
          else if c =? 102 then
            match strip_prefix (js "alse") s1 with
            | Some rest => Some (Bool false, rest)
            | None => None
            end
          else
            match parse_number (c :: s1) with
            | Some (lexeme, rest) => Some (Num lexeme, rest)
            | None => None
            end
      end
  end
with parse_elements (fuel : nat) (s : jsstring) {struct fuel}
  : option (list value * jsstring) :=
  match fuel with
  | O => None
  | S f =>
      match parse_value f s with
      | Some (v, s1) =>
          match skip_ws s1 with
          | c :: s2 =>
              if c =? 44 then
                match parse_elements f s2 with
                | Some (vs, rest) => Some (v :: vs, rest)
                | None => None
                end
              else if c =? 93 then Some ([v], s2)
              else None
          | [] => None
          end
      | None => None
      end
  end
with parse_members (fuel : nat) (s : jsstring) {struct fuel}
  : option (list (jsstring * value) * jsstring) :=
  match fuel with
  | O => None
  | S f =>
      match skip_ws s with
      | q :: s1 =>
          if q =? 34 then
            match parse_chars s1 with
            | Some (k, s2) =>
                match skip_ws s2 with
                | colon :: s3 =>
                    if colon =? 58 then
                      match parse_value f s3 with
                      | Some (v, s4) =>
                          match skip_ws s4 with
                          | c :: s5 =>
                              if c =? 44 then
                                match parse_members f s5 with
                                | Some (kvs, rest) => Some ((k, v) :: kvs, rest)
                                | None => None
                                end
                              else if c =? 125 then Some ([(k, v)], s5)
                              else None
                          | [] => None
                          end
                      | None => None
                      end
                    else None
                | [] => None
                end
            | None => None
            end
          else None
      | [] => None
      end
  end.

(** Fuel that no text can exhaust: each round of a sub-parser reads at
    least one code unit. *)
Definition fuel_for (s : jsstring) : nat := S (2 * length s).

(** [JSON.parse(s)]; [None] stands for the SyntaxError it throws. *)
Definition parse (s : jsstring) : option value :=
  match parse_value (fuel_for s) s with
  | Some (v, rest) =>
      match skip_ws rest with
      | [] => Some v
      | _ :: _ => None
      end
  | None => None
  end.

(** *** Reading values *)

Fixpoint digits_value (ds : jsstring) (acc : N) : N :=
  match ds with
  | [] => acc
  | d :: ds' => digits_value ds' (10 * acc + (d - 48))
  end.

(** The number a literal denotes is the double nearest to its decimal
    value, ties to even: it is zero exactly when the decimal value
    [m * 10^e] is at most [2^-1075] in magnitude. *)
Definition num_is_zero (lexeme : jsstring) : bool :=
  let s1 := match lexeme with
            | c :: s' => if c =? 45 then s' else lexeme
            | [] => lexeme
            end in
  let (ip, s2) := span_digits s1 in
  let (fp, s3) := match s2 with
                  | c :: s' => if c =? 46 then span_digits s' else ([], s2)
                  | [] => ([], s2)
                  end in
  let ex : Z :=
    match s3 with
    | _ :: d :: s' =>
        if d =? 45 then (- Z.of_N (digits_value s' 0))%Z
        else if d =? 43 then Z.of_N (digits_value s' 0)
        else Z.of_N (digits_value (d :: s') 0)
    | _ => 0%Z
    end in
  let m := digits_value (ip ++ fp) 0 in
  let e := (ex - Z.of_nat (length fp))%Z in
  (m =? 0)
  || (e <? 0)%Z && (m * 2 ^ 1075 <=? 10 ^ Z.to_N (- e)).

(** [!!v] *)
Definition truthy (v : value) : bool :=
  match v with
  | Null => false
  | Bool b => b
  | Num lexeme => negb (num_is_zero lexeme)
  | Str s => str_truthy s
  | Arr _ => true
  | Obj _ => true
  end.

(** [a || d] where [a] may be [undefined] ([None]). *)
Definition or_else (a : option value) (d : value) : value :=
  match a with
  | Some v => if truthy v then v else d
  | None => d
  end.

(** The last member with key [k]. *)
Fixpoint lookup_last (k : jsstring) (kvs : list (jsstring * value))
  : option value :=
  match kvs with
  | [] => None
  | (k', v) :: kvs' =>
      match lookup_last k kvs' with
      | Some v' => Some v'
      | None => if bool_decide (k' = k) then Some v else None
      end
  end.

Fixpoint join (sep : jsstring) (l : list jsstring) : jsstring :=
  match l with
  | [] => []
  | x :: l' =>
      match l' with
      | [] => x
      | _ :: _ => x ++ sep ++ join sep l'
      end
  end.

(** [String(v)]; a number is shown by its literal. *)
Fixpoint to_string (v : value) : jsstring :=
  match v with
  | Null => js "null"
  | Bool true => js "true"
  | Bool false => js "false"
  | Num lexeme => lexeme
  | Str s => s
  | Arr vs =>
      join (js ",")
        (List.map (fun x => match x with Null => [] | _ => to_string x end) vs)
  | Obj _ => js "[object Object]"
  end.

End Json.

Import Json.

(** ** Exceptions *)

Inductive exn : Type := TypeError | SyntaxError | SecurityError | QuotaExceededError.

Inductive result (A : Type) : Type :=
| Ok : A -> result A
| Throw : exn -> result A.
Arguments Ok {A} _.
Arguments Throw {A} _.

Definition bind {A B} (m : result A) (k : A -> result B) : result B :=
  match m with
  | Ok a => k a
  | Throw e => Throw e
  end.

(** [try { body } catch (e) { handler(e) }] *)
Definition try_catch {A} (body : result A) (handler : exn -> result A) : result A :=
  match body with
  | Ok a => Ok a
  | Throw e => handler e
  end.

Notation "x <- m ;; k" := (bind m (fun x => k))
  (at level 100, m at next level, right associativity).

(** ** The persisted fields *)

Inductive Field : Type := recipients | subject | body | resumeData | resumeName.

Definition field_key (f : Field) : jsstring :=
  match f with
  | recipients => js "recipients"
  | subject => js "subject"
  | body => js "body"
  | resumeData => js "resumeData"
  | resumeName => js "resumeName"
  end.

(** [o.f] for one of the five fields: reading a property of [null]
    throws; a string, number, boolean or array has none of these
    properties; [None] is [undefined]. *)
Definition prop (o : value) (f : Field) : result (option value) :=
  match o with
  | Null => Throw TypeError
  | Obj kvs => Ok (lookup_last (field_key f) kvs)
  | _ => Ok None
  end.

(** ** Local storage *)

(** The browser as the helpers see it: whether [window] exists, whether
    reaching [localStorage] raises (storage denied), whether a write
    raises (quota exceeded), the stored items and the console. *)
Record World : Type := mkWorld {
  has_window : bool;
  storage_denied : bool;
  storage_full : bool;
  localStorage : gmap (list N) (list N);
  console : list jsstring;
}.

Definition set_items (w : World) (items : gmap (list N) (list N)) : World :=
  {| has_window := has_window w; storage_denied := storage_denied w;
     storage_full := storage_full w; localStorage := items;
     console := console w |}.

Definition console_error (w : World) (msg : jsstring) : World :=
  {| has_window := has_window w; storage_denied := storage_denied w;
     storage_full := storage_full w; localStorage := localStorage w;
     console := console w ++ [msg] |}.

Definition getItem (w : World) (key : jsstring) : result (option (list N)) :=
  if storage_denied w then Throw SecurityError
  else Ok (localStorage w !! key).

Definition setItem (w : World) (key val : jsstring) : result World :=
  if storage_denied w then Throw SecurityError
  else if storage_full w then Throw QuotaExceededError
  else Ok (set_items w (<[key := val]> (localStorage w))).

Definition removeItem (w : World) (key : jsstring) : result World :=
  if storage_denied w then Throw SecurityError
  else Ok (set_items w (delete key (localStorage w))).

Definition JSON_parse (s : jsstring) : result value :=
  match Json.parse s with
  | Some v => Ok v
  | None => Throw SyntaxError
  end.

Definition STORAGE_KEY : jsstring := js "email-form-data".

Definition getStoredData (w : World) : result value :=
  if negb (has_window w) then Ok (Obj [])
  else
    try_catch
      (stored <- getItem w STORAGE_KEY ;;
       match stored with
       | Some text => if str_truthy text then JSON_parse text else Ok (Obj [])
       | None => Ok (Obj [])
       end)
      (fun _ => Ok (Obj [])).

Definition setStoredData (w : World) (data : value) : result World :=
  if negb (has_window w) then Ok w
  else
    try_catch
      (setItem w STORAGE_KEY (Json.stringify data))
      (fun _ => Ok (console_error w (js "Failed to save data to localStorage:"))).

Definition clearStoredData (w : World) : result World :=
  if negb (has_window w) then Ok w
  else
    try_catch
      (removeItem w STORAGE_KEY)
      (fun _ => Ok (console_error w (js "Failed to clear localStorage:"))).

(** ** The email form *)

Definition DEFAULT_SUBJECT : jsstring := js "ReactJS Developer Application".

Definition DEFAULT_BODY : jsstring := js "Dear Hiring Manager,

I am writing to express my interest in the ReactJS Developer position. 

With my experience in modern React development and related technologies, I believe I would be a great fit for your team.

Please find my resume attached for your consideration.

Best regards,
[Your Name]".

Record File : Type := mkFile {
  file_name : jsstring;
  file_type : jsstring;
  file_bits : list N;
}.

(** The [defaultValues] handed to [useForm].  The stored fields are
    whatever [JSON.parse] produced, so they stay untyped; [resume] is a
    file list or [undefined] ([None]). *)
Record DefaultValues : Type := mkDefaultValues {
  default_recipients : value;
  default_subject : value;
  default_body : value;
  default_resume : option (list File);
}.

Definition defaultValues (storedData : value) : result DefaultValues :=
  r <- prop storedData recipients ;;
  s <- prop storedData subject ;;
  b <- prop storedData body ;;
  Ok {| default_recipients := or_else r (Arr []);
        default_subject := or_else s (Str DEFAULT_SUBJECT);
        default_body := or_else b (Str DEFAULT_BODY);
        default_resume := None |}.

(** The mount effect: [storedFileName] after it ran ([null] before). *)
Definition mount_storedFileName (storedData : value) : result (option value) :=
  d <- prop storedData resumeData ;;
  if match d with Some x => truthy x | None => false end then
    n <- prop storedData resumeName ;;
    Ok (match n with
        | Some y => if truthy y then Some y else None
        | None => None
        end)
  else Ok None.

(** The values [onSubmit] receives ([z.infer<typeof formSchema>]);
    [resume] is a file list, or [undefined] / [null] ([None]). *)
Record FormData : Type := mkFormData {
  data_recipients : list jsstring;
  data_subject : jsstring;
  data_body : jsstring;
  data_resume : option (list File);
}.

(** The multipart body built with [new FormData()] and [append]. *)
Inductive Entry : Type :=
| Text : jsstring -> Entry
| Attachment : File -> Entry.

Abbreviation Payload := (list (list N * Entry)) (only parsing).

Fixpoint attachment (p : Payload) : option File :=
  match p with
  | [] => None
  | (name, Attachment f) :: p' =>
      if bool_decide (name = js "resume") then Some f else attachment p'
  | (_, Text _) :: p' => attachment p'
  end.

Record Auth : Type := mkAuth { email : jsstring; password : jsstring }.

(** What a handler asks of its environment: [Fetch url k] is
    [fetch(url).then(res => res.blob()).then(k)], [Mutate formData k] is
    [mutation.mutate(formData)] followed by [k]. *)
Inductive cmd : Type :=
| Done : cmd
| Raise : exn -> cmd
| Fetch : jsstring -> (list N -> cmd) -> cmd
| Mutate : Payload -> cmd -> cmd.

Definition onSubmit (auth : Auth) (storedData : value) (data : FormData) : cmd :=
  let formData : Payload :=
    [(js "email", Text (email auth));
     (js "app_password", Text (password auth));
     (js "recipients", Text (join (js ",") (data_recipients data)));
     (js "subject", Text (data_subject data));
     (js "body", Text (data_body data))] in
  match data_resume data with
  | Some (file :: _) => Mutate (formData ++ [(js "resume", Attachment file)]) Done
  | _ =>
      match prop storedData resumeData with
      | Throw e => Raise e
      | Ok None => Mutate formData Done
      | Ok (Some d) =>
          if truthy d then
            match prop storedData resumeName with
            | Throw e => Raise e
            | Ok None => Mutate formData Done
            | Ok (Some n) =>
                if truthy n then
                  Fetch (to_string d)
                    (fun blob =>
                       let file := {| file_name := to_string n;
                                      file_type := js "application/pdf";
                                      file_bits := blob |} in
                       Mutate (formData ++ [(js "resume", Attachment file)]) Done)
                else Mutate formData Done
            end
          else Mutate formData Done
      end
  end.

(** The payloads a handler sends when [fetch] behaves as [fetch_blob]
    ([None]: the promise rejects and nothing follows). *)
Fixpoint sent (fetch_blob : jsstring -> option (list N)) (c : cmd)
  : list Payload :=
  match c with
  | Done => []
  | Raise _ => []
  | Fetch url k =>
      match fetch_blob url with
      | Some blob => sent fetch_blob (k blob)
      | None => []
      end
  | Mutate formData k => formData :: sent fetch_blob k
  end.

(** *** The controller as a state machine *)

Inductive MutationStatus : Type := Pending | Success | Error.

(** [world], the form values, the component state, the [fetch] promises
    not settled yet with their continuations, the sends not settled yet
    (each mutation has an id), and the mutation the [useMutation]
    observer follows with its status ([None]: no [mutate] yet). *)
Record Controller : Type := mkController {
  world : World;
  auth_data : Auth;
  formValues : FormData;
  storedFileName : option jsstring;
  isEditing : bool;
  refreshKey : nat;
  fetches : list (list N * (list N -> cmd));
  sends : list (nat * Payload);
  next_mutation : nat;
  observed : option (nat * MutationStatus);
}.

(** [mutation.isPending] *)
Definition isPending (c : Controller) : bool :=
  match observed c with
  | Some (_, Pending) => true
  | _ => false
  end.

Inductive Phase : Type := Idle | Submitting | Settled.

Definition phase (c : Controller) : Phase :=
  match observed c with
  | None => Idle
  | Some (_, Pending) => Submitting
  | Some (_, _) => Settled
  end.

(** [mutation.mutate(formData)]: the send starts at once and becomes the
    observed mutation. *)
Definition mutate (c : Controller) (formData : Payload) : Controller :=
  {| world := world c; auth_data := auth_data c; formValues := formValues c;
     storedFileName := storedFileName c; isEditing := isEditing c;
     refreshKey := refreshKey c; fetches := fetches c;
     sends := sends c ++ [(next_mutation c, formData)];
     next_mutation := S (next_mutation c);
     observed := Some (next_mutation c, Pending) |}.

Definition set_fetches (c : Controller) (fs : list (list N * (list N -> cmd)))
  : Controller :=
  {| world := world c; auth_data := auth_data c; formValues := formValues c;
     storedFileName := storedFileName c; isEditing := isEditing c;
     refreshKey := refreshKey c; fetches := fs;
     sends := sends c; next_mutation := next_mutation c;
     observed := observed c |}.

Fixpoint exec (c : Controller) (h : cmd) : Controller :=
  match h with
  | Done => c
  | Raise _ => c
  | Fetch url k => set_fetches c (fetches c ++ [(url, k)])
  | Mutate formData k => exec (mutate c formData) k
  end.

(** The checks of [formSchema] that do not depend on zod's own pattern
    for [z.string().email()]: at least one recipient, a subject, a body
    of ten code units or more. *)
Definition schema_lengths_ok (data : FormData) : bool :=
  (1 <=? length (data_recipients data))%nat
  && (1 <=? length (data_subject data))%nat
  && (10 <=? length (data_body data))%nat.

Definition settle (c : Controller) (id : nat) (ok : bool) : Controller :=
  {| world := world c; auth_data := auth_data c; formValues := formValues c;
     storedFileName := storedFileName c; isEditing := isEditing c;
     refreshKey := refreshKey c; fetches := fetches c;
     sends := List.filter (fun m => negb (fst m =? id)%nat) (sends c);
     next_mutation := next_mutation c;
     observed :=
       match observed c with
       | Some (cur, Pending) =>
           if (cur =? id)%nat then Some (cur, if ok then Success else Error)
           else observed c
       | o => o
       end |}.

Definition handleClearStorage (c : Controller) : result Controller :=
  w <- clearStoredData (world c) ;;
  Ok {| world := w; auth_data := auth_data c;
        formValues := {| data_recipients := [];
                         data_subject := DEFAULT_SUBJECT;
                         data_body := DEFAULT_BODY;
                         data_resume := None |};
        storedFileName := None; isEditing := false;
        refreshKey := S (refreshKey c); fetches := fetches c;
        sends := sends c; next_mutation := next_mutation c;
        observed := observed c |}.

Inductive event : Type :=
| ClickSend : event
| ClickClear : event
| FetchResolved : nat -> list N -> event
| FetchRejected : nat -> event
| SendSettled : nat -> bool -> event.

(** One event of the page; [None] when it cannot happen in [c] (a
    disabled button, a promise or a send that does not exist).
    [ClickSend] is [handleSubmit(onSubmit)]: when the form values fail
    the length checks of the schema nothing is submitted; otherwise
    [onSubmit] runs with the [storedData] of the current render (the
    recipients come from the tag input, which only commits strings that
    pass [isValidEmail]; zod's own email pattern is not modelled). *)
Definition step (c : Controller) (e : event) : option Controller :=
  match e with
  | ClickSend =>
      if isPending c then None
      else if schema_lengths_ok (formValues c) then
        match getStoredData (world c) with
        | Ok storedData =>
            Some (exec c (onSubmit (auth_data c) storedData (formValues c)))
        | Throw _ => None
        end
      else Some c
  | ClickClear =>
      if isPending c then None
      else
        match handleClearStorage c with
        | Ok c' => Some c'
        | Throw _ => None
        end
  | FetchResolved i blob =>
      match fetches c !! i with
      | Some (_, k) => Some (exec (set_fetches c (delete i (fetches c))) (k blob))
      | None => None
      end
  | FetchRejected i =>
      match fetches c !! i with
      | Some _ => Some (set_fetches c (delete i (fetches c)))
      | None => None
      end
  | SendSettled id ok =>
      if bool_decide (id ∈ (fst <$> sends c)) then Some (settle c id ok)
      else None
  end.

Fixpoint run (c : Controller) (es : list event) : option Controller :=
  match es with
  | [] => Some c
  | e :: es' =>
      match step c e with
      | Some c' => run c' es'
      | None => None
      end
  end.

(** A controller that has just mounted: nothing in flight, no mutation. *)
Definition mounted (c : Controller) : Prop :=
  fetches c = [] /\ sends c = [] /\ observed c = None.

Definition reachable (c : Controller) : Prop :=
  exists c0 es, mounted c0 /\ run c0 es = Some c.

(** *** Drafts

    The object the auto-save effect hands to [setStoredData] when every
    field is well typed: [{subject, body, recipients, resumeData,
    resumeName}], a property being left out when it is [undefined]. *)
Record Draft : Type := mkDraft {
  draft_recipients : list jsstring;
  draft_subject : jsstring;
  draft_body : jsstring;
  draft_resumeData : option jsstring;
  draft_resumeName : option jsstring;
}.

Definition optional_member (f : Field) (o : option jsstring)
  : list (list N * value) :=
  match o with
  | Some s => [(field_key f, Str s)]
  | None => []
  end.

Definition draft_object (d : Draft) : value :=
  Obj ([(field_key subject, Str (draft_subject d));
        (field_key body, Str (draft_body d));
        (field_key recipients, Arr (Str <$> draft_recipients d))]
       ++ optional_member resumeData (draft_resumeData d)
       ++ optional_member resumeName (draft_resumeName d)).

(** *** Measures used in the round-trip proof *)

(** A value without numbers. *)
Fixpoint plain (v : value) : bool :=
  match v with
  | Num _ => false
  | Arr vs => forallb plain vs
  | Obj kvs => forallb (fun kv => plain (snd kv)) kvs
  | _ => true
  end.

(** The number of nodes of a value, each element or member counting one
    more: fuel that suffices to parse its text. *)
Fixpoint size (v : value) : nat :=
  match v with
  | Arr vs => S (list_sum (List.map (fun x => S (size x)) vs))
  | Obj kvs => S (list_sum (List.map (fun kv => S (size (snd kv))) kvs))
  | _ => 1
  end.

Fixpoint elements_text (vs : list value) : list N :=
  match vs with
  | [] => []
  | v :: vs' =>
      match vs' with
      | [] => stringify v
      | _ :: _ => stringify v ++ 44 :: elements_text vs'
      end
  end.

Fixpoint members_text (kvs : list (list N * value)) : list N :=
  match kvs with
  | [] => []
  | (k, v) :: kvs' =>
      match kvs' with
      | [] => quote k ++ 58 :: stringify v
      | _ :: _ => quote k ++ 58 :: stringify v ++ 44 :: members_text kvs'
      end
  end.

(** The fragments of a pasted text that [handlePaste] keeps before it
    compares them with the chips. *)
Definition pasted_emails (pastedText : list N) : list (list N) :=
  List.filter (fun email => str_truthy email && isValidEmail email)
    (List.map trim (split_delims pastedText)).

(** A parsed string with one more character in front. *)
Definition push (c : N) (r : option (list N * list N)) : option (list N * list N) :=
  match r with
  | Some (str, rest) => Some (c :: str, rest)
  | None => None
  end.

(** A browser with the given items, whose storage works. *)
Definition browser (items : gmap (list N) (list N)) : World :=
  {| has_window := true; storage_denied := false; storage_full := false;
     localStorage := items; console := [] |}.

(** [s || fallback] for a stored string. *)
Definition string_or (s fallback : list N) : list N :=
  match s with [] => fallback | _ :: _ => s end.

(** [onSubmit] received no file: [data.resume && data.resume[0]] is falsy. *)
Definition no_new_file (data : FormData) : Prop :=
  data_resume data = None \/ data_resume data = Some [].

(** *** A sample page

    A browser that holds a draft with a stored attachment, and the page
    just mounted on it with a form that passes the schema. *)
Definition sample_draft : Draft :=
  {| draft_recipients := [js "a@b.co"];
     draft_subject := js "Hi";
     draft_body := js "0123456789";
     draft_resumeData := Some (js "data:application/pdf;base64,JVBERg==");
     draft_resumeName := Some (js "resume.pdf") |}.

Definition sample_blob : list N := [37; 80; 68; 70].

Definition sample_controller : Controller :=
  {| world := browser {[ STORAGE_KEY := stringify (draft_object sample_draft) ]};
     auth_data := {| email := js "me@x.io"; password := js "secret" |};
     formValues := {| data_recipients := [js "a@b.co"];
                      data_subject := js "Hi";
                      data_body := js "0123456789";
                      data_resume := None |};
     storedFileName := Some (js "resume.pdf");
     isEditing := false;
     refreshKey := 0;
     fetches := [];
     sends := [];
     next_mutation := 0;
     observed := None |}.

(** ** The events of the tag input widget

    The handlers as the JSX wires them: [onChange] of the text input
    ([setInputValue(e.target.value)]), [onKeyDown], [onPaste], [onBlur],
    and the click on the remove button of the chip at [index]. *)
Inductive TagEvent : Type :=
| Change : list N -> TagEvent
| KeyDown : list N -> TagEvent
| Paste : list N -> TagEvent
| Blur : TagEvent
| ClickRemove : nat -> TagEvent.

Definition handle (w : TagInput) (e : TagEvent) : TagInput :=
  match e with
  | Change v => setInputValue w v
  | KeyDown key => handleKeyDown w key
  | Paste pastedText => handlePaste w pastedText
  | Blur => handleBlur w
  | ClickRemove index => removeTag w index
  end.

Definition handle_all (w : TagInput) (es : list TagEvent) : TagInput :=
  fold_left handle es w.

(** The events that commit the pending text: Enter, comma, space, and
    the loss of focus. *)
Definition is_commit (e : TagEvent) : Prop :=
  e = KeyDown key_Enter \/ e = KeyDown (js ",") \/ e = KeyDown (js " ")
  \/ e = Blur.

(** What the parent holds: the value it gave the widget at first, then
    the argument of the latest [onChange] call. *)
Definition parent_value (initial : list (list N)) (w : TagInput) : list (list N) :=
  default initial (last (onChange_calls w)).

(** ** Object literals with spread

    [own_entries v] lists the own enumerable properties of [v] in the
    order [{...v}] copies them: array indices first, ascending, then the
    other keys in the order they were created.  [set_prop] is the
    definition of one more property in a literal: an existing key keeps
    its place and takes the new value, a new key goes last (the keys
    written in the literals of the source are not array indices). *)

(** The array index a key denotes: a canonical decimal below [2^32 - 1]. *)
Definition array_index (k : list N) : option N :=
  match k with
  | [] => None
  | c :: rest =>
      if forallb is_digit k then
        if (c =? 48) && (0 <? length rest)%nat then None
        else
          let n := digits_value k 0 in
          if n <? 4294967295 then Some n else None
      else None
  end.

Fixpoint set_prop (k : list N) (v : value) (entries : list (list N * value))
  : list (list N * value) :=
  match entries with
  | [] => [(k, v)]
  | (k', v') :: rest =>
      if bool_decide (k' = k) then (k', v) :: rest
      else (k', v') :: set_prop k v rest
  end.

Fixpoint insert_index (n : N) (kv : list N * value)
  (sorted : list (N * (list N * value))) : list (N * (list N * value)) :=
  match sorted with
  | [] => [(n, kv)]
  | (m, kv') :: rest =>
      if n <=? m then (n, kv) :: sorted else (m, kv') :: insert_index n kv rest
  end.

Fixpoint index_entries (entries : list (list N * value))
  : list (N * (list N * value)) :=
  match entries with
  | [] => []
  | (k, v) :: rest =>
      match array_index k with
      | Some n => insert_index n (k, v) (index_entries rest)
      | None => index_entries rest
      end
  end.

Definition property_order (entries : list (list N * value))
  : list (list N * value) :=
  (snd <$> index_entries entries)
  ++ List.filter (fun kv => negb (bool_decide (is_Some (array_index (fst kv)))))
       entries.

(** [String(i)] for an array position. *)
Definition decimal (i : nat) : list N :=
  js (NilZero.string_of_uint (Nat.to_uint i)).

Definition own_entries (v : value) : list (list N * value) :=
  match v with
  | Obj kvs =>
      property_order (fold_left (fun acc kv => set_prop (fst kv) (snd kv) acc) kvs [])
  | Arr vs => imap (fun i x => (decimal i, x)) vs
  | Str s => imap (fun i c => (decimal i, Str [c])) s
  | _ => []
  end.

(** ** The auto-save effect

    [useEffect(..., [formValues])].  [readAsDataURL] stands for the
    [FileReader]: the data URL its [onload] handler receives, or [None]
    when the read fails and the handler never runs.  The result is the
    browser and [storedFileName] once the effect and its handler are
    done. *)
Definition autoSave (readAsDataURL : File -> option (list N)) (w : World)
  (storedData : value) (formValues : FormData) (storedFileName : option (list N))
  : result (World * option (list N)) :=
  let dataToStore :=
    [(field_key subject, Str (data_subject formValues));
     (field_key body, Str (data_body formValues))] in
  let recipients_value := Arr (Str <$> data_recipients formValues) in
  match data_resume formValues with
  | Some (file :: _) =>
      match readAsDataURL file with
      | Some url =>
          w' <- setStoredData w
                  (Obj (dataToStore
                        ++ [(field_key recipients, recipients_value);
                            (field_key resumeData, Str url);
                            (field_key resumeName, Str (file_name file))])) ;;
          Ok (w', Some (file_name file))
      | None => Ok (w, storedFileName)
      end
  | _ =>
      w' <- setStoredData w
              (Obj (set_prop (field_key recipients) recipients_value
                      (fold_left (fun acc kv => set_prop (fst kv) (snd kv) acc)
                         dataToStore (own_entries storedData)))) ;;
      Ok (w', storedFileName)
  end.

Definition set_world (c : Controller) (w : World) (name : option (list N))
  : Controller :=
  {| world := w; auth_data := auth_data c; formValues := formValues c;
     storedFileName := name; isEditing := isEditing c;
     refreshKey := refreshKey c; fetches := fetches c;
     sends := sends c; next_mutation := next_mutation c;
     observed := observed c |}.

(** The effect in a render of the page: [storedData] is read by the
    render itself. *)
Definition autoSaveEffect (readAsDataURL : File -> option (list N))
  (c : Controller) : result Controller :=
  storedData <- getStoredData (world c) ;;
  r <- autoSave readAsDataURL (world c) storedData (formValues c)
         (storedFileName c) ;;
  Ok (set_world c (fst r) (snd r)).

(** The draft the auto-save writes for the form values [data] over a
    stored draft [d]: the text fields of the form, the attachment of
    [d]. *)
Definition merge_draft (data : FormData) (d : Draft) : Draft :=
  {| draft_recipients := data_recipients data;
     draft_subject := data_subject data;
     draft_body := data_body data;
     draft_resumeData := draft_resumeData d;
     draft_resumeName := draft_resumeName d |}.

Definition empty_draft : Draft :=
  {| draft_recipients := []; draft_subject := []; draft_body := [];
     draft_resumeData := None; draft_resumeName := None |}.

(** The browser's storage works: [window] exists, no access raises. *)
Definition working (w : World) : Prop :=
  has_window w = true /\ storage_denied w = false /\ storage_full w = false.

(** What a draft-shaped item of the storage holds: nothing, or the text
    of a draft. *)
Definition holds_draft (w : World) (d : Draft) : Prop :=
  (localStorage w !! STORAGE_KEY = None /\ d = empty_draft)
  \/ localStorage w !! STORAGE_KEY = Some (stringify (draft_object d)).

(** The form values [reset] installs in [handleClearStorage]. *)
Definition template_form : FormData :=
  {| data_recipients := []; data_subject := DEFAULT_SUBJECT;
     data_body := DEFAULT_BODY; data_resume := None |}.

(** Typed form values as the untyped ones [useForm] starts from. *)
Definition form_values (data : FormData) : DefaultValues :=
  {| default_recipients := Arr (Str <$> data_recipients data);
     default_subject := Str (data_subject data);
     default_body := Str (data_body data);
     default_resume := data_resume data |}.

(** [storedData.resumeData && storedData.resumeName] as a condition
    ([false] also when reading the properties throws). *)
Definition stored_attachment (storedData : value) : bool :=
  match prop storedData resumeData, prop storedData resumeName with
  | Ok (Some d), Ok (Some n) => truthy d && truthy n
  | _, _ => false
  end.

(** The text entries every payload starts with. *)
Definition text_entries (auth : Auth) (data : FormData) : list (list N * Entry) :=
  [(js "email", Text (email auth));
   (js "app_password", Text (password auth));
   (js "recipients", Text (join (js ",") (data_recipients data)));
   (js "subject", Text (data_subject data));
   (js "body", Text (data_body data))].


(** The draft the auto-save writes when the form holds [file] and the
    reader gives [url]. *)
Definition draft_with_file (data : FormData) (url : list N) (file : File) : Draft :=
  {| draft_recipients := data_recipients data;
     draft_subject := data_subject data;
     draft_body := data_body data;
     draft_resumeData := Some url;
     draft_resumeName := Some (file_name file) |}.


(** The browser once the text of a draft is written under the key. *)
Definition store (w : World) (d : Draft) : World :=
  set_items w (<[STORAGE_KEY := stringify (draft_object d)]> (localStorage w)).

(** A page whose form holds a freshly chosen file, and a reader for it. *)
Definition sample_file : File :=
  {| file_name := js "cv.pdf"; file_type := js "application/pdf";
     file_bits := [37; 80; 68; 70] |}.

Definition sample_with_file : Controller :=
  {| world := browser ∅;
     auth_data := auth_data sample_controller;
     formValues := {| data_recipients := [js "a@b.co"];
                      data_subject := js "Hi";
                      data_body := js "0123456789";
                      data_resume := Some [sample_file] |};
     storedFileName := None; isEditing := true; refreshKey := 0;
     fetches := []; sends := []; next_mutation := 0; observed := None |}.

Definition sample_reader (file : File) : option (list N) :=
  Some (js "data:application/pdf;base64,JVBERg==").


(** * Properties *)

(** ** Strings *)

Section Trim.

Lemma trimStart_idem s : trimStart (trimStart s) = trimStart s.
Proof.
  induction s as [|c s IH]; simpl; [done|].
  destruct (is_space c) eqn:E; [done|]. simpl. by rewrite E.
Qed.

Lemma trimStart_snoc s c :
  is_space c = false -> exists s', trimStart (s ++ [c]) = s' ++ [c].
Proof.
  intros Hc. induction s as [|a s IH]; simpl.
  - rewrite Hc. by exists [].
  - destruct (is_space a); [done|]. by exists (a :: s).
Qed.

Lemma trimStart_fixed s :
  trimStart s = s -> trimStart (trimEnd s) = trimEnd s.
Proof.
  destruct s as [|c s]; [done|]. simpl.
  destruct (is_space c) eqn:E.
  - intros H. exfalso.
    assert (Hsuf : forall t : list N, (length (trimStart t) <= length t)%nat).
    { induction t as [|a t IH]; simpl; [lia|]. destruct (is_space a); simpl; lia. }
    specialize (Hsuf s). rewrite H in Hsuf. simpl in Hsuf. lia.
  - intros _. unfold trimEnd. simpl.
    destruct (trimStart_snoc (rev s) c E) as [s' ->].
    rewrite rev_app_distr. simpl. by rewrite E.
Qed.

Lemma trimEnd_idem s : trimEnd (trimEnd s) = trimEnd s.
Proof. unfold trimEnd. by rewrite rev_involutive, trimStart_idem. Qed.

Lemma trim_idem s : trim (trim s) = trim s.
Proof.
  unfold trim.
  rewrite (trimStart_fixed (trimStart s)) by apply trimStart_idem.
  apply trimEnd_idem.
Qed.

Lemma isValidEmail_trim s : isValidEmail (trim s) = isValidEmail s.
Proof. unfold isValidEmail. by rewrite trim_idem. Qed.

End Trim.

(** ** Regular expressions: the matcher decides the language *)

Section RegexCorrect.

Import Regex.

Lemma lang_cat_inv r1 r2 s :
  lang (Cat r1 r2) s -> exists s1 s2, s = s1 ++ s2 /\ lang r1 s1 /\ lang r2 s2.
Proof. inversion 1; subst; eauto. Qed.

Lemma lang_alt_inv r1 r2 s : lang (Alt r1 r2) s -> lang r1 s \/ lang r2 s.
Proof. inversion 1; subst; auto. Qed.

(** A non-empty word of [r*] starts with a non-empty word of [r]. *)
Lemma lang_star_cons_inv r c s :
  lang (Star r) (c :: s) ->
  exists s1 s2, s = s1 ++ s2 /\ lang r (c :: s1) /\ lang (Star r) s2.
Proof.
  intros H. remember (Star r) as r' eqn:Hr. remember (c :: s) as t eqn:Ht.
  induction H as [| | | | | |r0 s1 s2 H1 _ H2 IH2]; try discriminate.
  injection Hr as ->. destruct s1 as [|a s1].
  - simpl in Ht. auto.
  - injection Ht as -> <-. eauto.
Qed.

Lemma nullable_spec r : nullable r = true <-> lang r [].
Proof.
  induction r as [| |p|r1 IH1 r2 IH2|r1 IH1 r2 IH2|r IH]; simpl.
  - split; [discriminate|inversion 1].
  - split; [constructor|done].
  - split; [discriminate|inversion 1].
  - rewrite andb_true_iff, IH1, IH2. split.
    + intros [H1 H2]. apply (lang_cat r1 r2 [] [] H1 H2).
    + intros H. apply lang_cat_inv in H as (s1 & s2 & E & H1 & H2).
      symmetry in E. apply app_eq_nil in E as [-> ->]. auto.
  - rewrite orb_true_iff, IH1, IH2. split.
    + intros [H|H]; [by apply lang_alt_l|by apply lang_alt_r].
    + apply lang_alt_inv.
  - split; [constructor|done].
Qed.

Lemma deriv_spec r : forall c s, lang (deriv c r) s <-> lang r (c :: s).
Proof.
  induction r as [| |p|r1 IH1 r2 IH2|r1 IH1 r2 IH2|r IH]; intros c s; simpl.
  - split; inversion 1.
  - split; inversion 1.
  - destruct (p c) eqn:Hp; split.
    + inversion 1; subst. by constructor.
    + inversion 1; subst. constructor.
    + inversion 1.
    + inversion 1; subst. congruence.
  - assert (Hl : lang (Cat (deriv c r1) r2) s ->  lang (Cat r1 r2) (c :: s)).
    { intros H. apply lang_cat_inv in H as (s1 & s2 & -> & H1 & H2).
      apply IH1 in H1. apply (lang_cat r1 r2 (c :: s1) s2 H1 H2). }
    assert (Hr : lang (Cat r1 r2) (c :: s) ->
                 lang (Cat (deriv c r1) r2) s
                 \/ (lang r1 [] /\ lang (deriv c r2) s)).
    { intros H. apply lang_cat_inv in H as (s1 & s2 & E & H1 & H2).
      destruct s1 as [|a s1]; simpl in E.
      - subst s2. right. split; [done|]. by apply IH2.
      - injection E as <- ->. left. apply lang_cat; [by apply IH1|done]. }
    destruct (nullable r1) eqn:Hn; split.
    + intros H. apply lang_alt_inv in H as [H|H]; [auto|].
      apply IH2 in H. apply nullable_spec in Hn.
      apply (lang_cat r1 r2 [] (c :: s) Hn H).
    + intros H. apply Hr in H as [H|[_ H]];
        [by apply lang_alt_l|by apply lang_alt_r].
    + done.
    + intros H. apply Hr in H as [H|[H _]]; [done|].
      apply nullable_spec in H. congruence.
  - split.
    + intros H. apply lang_alt_inv in H as [H|H];
        [apply lang_alt_l; by apply IH1|apply lang_alt_r; by apply IH2].
    + intros H. apply lang_alt_inv in H as [H|H];
        [apply lang_alt_l; by apply IH1|apply lang_alt_r; by apply IH2].
  - split.
    + intros H. apply lang_cat_inv in H as (s1 & s2 & -> & H1 & H2).
      apply IH in H1. apply (lang_star_cons r (c :: s1) s2 H1 H2).
    + intros H. apply lang_star_cons_inv in H as (s1 & s2 & -> & H1 & H2).
      apply lang_cat; [by apply IH|done].
Qed.

Lemma test_anchored_spec s : forall r, test_anchored r s = true <-> lang r s.
Proof.
  induction s as [|c s IH]; intros r; simpl.
  - apply nullable_spec.
  - rewrite IH. apply deriv_spec.
Qed.

(** [[p]+]: one code unit of the class or more. *)
Lemma lang_plus_class p s :
  lang (Plus (Class p)) s <-> s <> [] /\ Forall (fun c => p c = true) s.
Proof.
  assert (Hstar : forall t, lang (Star (Class p)) t <-> Forall (fun c => p c = true) t).
  { induction t as [|c t IH]; split.
    - constructor.
    - constructor.
    - intros H. apply lang_star_cons_inv in H as (s1 & s2 & -> & H1 & H2).
      inversion H1; subst. simpl in *. constructor; [done|]. by apply IH.
    - inversion 1; subst.
      apply (lang_star_cons (Class p) [c] t); [by constructor|by apply IH]. }
  unfold Plus. split.
  - intros H. apply lang_cat_inv in H as (s1 & s2 & -> & H1 & H2).
    inversion H1; subst. simpl. split; [done|].
    constructor; [done|by apply Hstar].
  - intros [Hne HF]. destruct s as [|c t]; [done|].
    inversion HF; subst.
    apply (lang_cat (Class p) (Star (Class p)) [c] t);
      [by constructor|by apply Hstar].
Qed.

(** The email pattern accepts exactly [local@domain.tld]: three
    non-empty runs of code units other than white space and [@], the
    first two separated by [@], the last two by a dot. *)
Lemma isValidEmail_shape email :
  isValidEmail email = true <-> email_shape (trim email).
Proof.
  unfold isValidEmail, email_shape, email_re, run_of.
  rewrite test_anchored_spec. split.
  - intros H.
    apply lang_cat_inv in H as (a & t1 & -> & Ha & H).
    apply lang_cat_inv in H as (x & t2 & -> & Hx & H).
    apply lang_cat_inv in H as (b & t3 & -> & Hb & H).
    apply lang_cat_inv in H as (y & c & -> & Hy & Hc).
    inversion Hx as [|p x' Hx'| | | | |]; subst.
    inversion Hy as [|p y' Hy'| | | | |]; subst.
    apply N.eqb_eq in Hx', Hy'. subst.
    apply lang_plus_class in Ha, Hb, Hc.
    exists a, b, c. simpl. auto.
  - intros (a & b & c & -> & Ha & Hb & Hc).
    apply lang_plus_class in Ha, Hb, Hc.
    apply lang_cat; [done|].
    apply (lang_cat _ _ [64]); [by constructor|].
    apply lang_cat; [done|].
    apply (lang_cat _ _ [46]); [by constructor|done].
Qed.

End RegexCorrect.

(** ** The tag input widget *)

Section TagInputProperties.

Implicit Types (w : TagInput) (email key : jsstring).

Lemma includes_true (arr : list (list N)) (x : list N) :
  includes arr x = true <-> x ∈ arr.
Proof. unfold includes. apply bool_decide_eq_true. Qed.

Lemma filter_index_above {A} (l : list A) (i j : nat) :
  (i < j)%nat -> filter_index (fun index => negb (index =? i)%nat) j l = l.
Proof.
  revert j. induction l as [|x l IH]; intros j Hj; simpl; [done|].
  destruct (Nat.eqb_spec j i); [lia|]. simpl. f_equal. apply IH. lia.
Qed.

Lemma filter_index_remove {A} (l : list A) (k i : nat) :
  (k <= i)%nat ->
  filter_index (fun index => negb (index =? i)%nat) k l
  = take (i - k) l ++ drop (S (i - k)) l.
Proof.
  revert k. induction l as [|x l IH]; intros k Hk; simpl.
  - by rewrite take_nil.
  - destruct (Nat.eqb_spec k i) as [->|Hne]; simpl.
    + rewrite Nat.sub_diag. simpl. rewrite drop_0.
      apply filter_index_above. lia.
    + replace (i - k)%nat with (S (i - S k)) by lia. simpl.
      f_equal. apply IH. lia.
Qed.

Lemma removeTag_tags w i :
  tags (removeTag w i) = take i (tags w) ++ drop (S i) (tags w).
Proof.
  unfold removeTag. simpl. rewrite filter_index_remove by lia.
  by rewrite Nat.sub_0_r.
Qed.

(** C3.  Removing the chip at an index [i] inside the collection leaves
    the chips before [i] followed by the chips after [i], one chip
    fewer, and reports exactly that collection through [onChange]. *)
Theorem removeTag_removes_index w i :
  (i < length (tags w))%nat ->
  tags (removeTag w i) = take i (tags w) ++ drop (S i) (tags w)
  /\ length (tags (removeTag w i)) = (length (tags w) - 1)%nat
  /\ (forall j, tags (removeTag w i) !! j
                = if (j <? i)%nat then tags w !! j else tags w !! S j)
  /\ onChange_calls (removeTag w i)
     = onChange_calls w ++ [tags (removeTag w i)].
Proof.
  intros Hi. split; [apply removeTag_tags|].
  split; [|split; [|reflexivity]]; rewrite removeTag_tags.
  - rewrite length_app, length_take, length_drop. lia.
  - intros j. destruct (Nat.ltb_spec j i) as [Hj|Hj].
    + rewrite lookup_app_l by (rewrite length_take; lia).
      by rewrite lookup_take_lt.
    + rewrite lookup_app_r by (rewrite length_take; lia).
      rewrite length_take, lookup_drop. f_equal. lia.
Qed.

Lemma removeTag_removes_index_witness :
  let w := widget [js "a@b.co"; js "c@d.org"; js "e@f.io"] in
  tags (removeTag w 1) = [js "a@b.co"; js "e@f.io"]
  /\ length (tags (removeTag w 1)) = 2%nat.
Proof.
  intros w.
  destruct (removeTag_removes_index w 1) as (H1 & H2 & _).
  - simpl. lia.
  - split; [rewrite H1; reflexivity | rewrite H2; reflexivity].
Defined.

(** C2.  Adding a string whose trimmed form is already a chip, or that
    does not pass [isValidEmail], changes nothing: neither the chips,
    nor the pending text, and [onChange] is not called. *)
Theorem addTag_duplicate_or_malformed w email :
  trim email ∈ tags w \/ isValidEmail email = false ->
  addTag w email = w.
Proof.
  intros H. unfold addTag. rewrite isValidEmail_trim.
  destruct H as [Hin | Hbad].
  - apply includes_true in Hin. rewrite Hin. simpl.
    by rewrite andb_false_r.
  - rewrite Hbad. simpl. by rewrite andb_false_r.
Qed.

Lemma addTag_duplicate_or_malformed_witness :
  addTag (widget [js "a@b.co"]) (js " a@b.co ") = widget [js "a@b.co"]
  /\ addTag (widget [js "a@b.co"]) (js "not-an-email") = widget [js "a@b.co"].
Proof.
  split.
  - apply addTag_duplicate_or_malformed. left. vm_compute.
    apply list_elem_of_here.
  - apply addTag_duplicate_or_malformed. right. vm_compute. reflexivity.
Defined.

Lemma addTag_fresh w email :
  trim email <> [] -> isValidEmail email = true -> trim email ∉ tags w ->
  tags (addTag w email) = tags w ++ [trim email].
Proof.
  intros Hne Hv Hnin. unfold addTag. rewrite isValidEmail_trim, Hv.
  destruct (trim email) as [|c t] eqn:E; [done|]. simpl.
  destruct (includes (tags w) (c :: t)) eqn:Hi; [|done].
  apply includes_true in Hi. done.
Qed.

Lemma removeTag_last w :
  tags (removeTag w (length (tags w) - 1)) = removelast (tags w).
Proof.
  rewrite removeTag_tags.
  destruct (tags w) as [|x l] eqn:E; [done|].
  rewrite <- E.
  assert (Hlen : (0 < length (tags w))%nat) by (rewrite E; simpl; lia).
  rewrite drop_ge by lia. rewrite app_nil_r.
  rewrite removelast_firstn_len. f_equal. lia.
Qed.

(** C10.  Backspace on an empty pending text removes the last chip of
    a non-empty collection; with a pending text, or with no chip, it
    leaves the widget as it is. *)
Theorem handleKeyDown_backspace w :
  (tags w <> [] -> inputValue w = [] ->
     tags (handleKeyDown w key_Backspace) = removelast (tags w)
     /\ length (tags (handleKeyDown w key_Backspace)) = (length (tags w) - 1)%nat)
  /\ (inputValue w <> [] \/ tags w = [] -> handleKeyDown w key_Backspace = w).
Proof.
  unfold handleKeyDown.
  assert (Hk : bool_decide (key_Backspace = key_Enter)
               || bool_decide (key_Backspace = js ",")
               || bool_decide (key_Backspace = js " ") = false)
    by (vm_compute; reflexivity).
  rewrite Hk. rewrite bool_decide_eq_true_2 by reflexivity. simpl.
  split.
  - intros Hne Hin. rewrite Hin. simpl.
    destruct (tags w) as [|x l] eqn:E; [done|]. rewrite <- E.
    assert (Hpos : (0 <? length (tags w))%nat = true)
      by (rewrite E; reflexivity).
    rewrite Hpos. rewrite removeTag_last. split; [done|].
    rewrite removelast_firstn_len, length_take. lia.
  - intros [Hin | Hnil].
    + destruct (inputValue w); [done|]. reflexivity.
    + rewrite Hnil. simpl. by rewrite andb_false_r.
Qed.

Lemma handleKeyDown_backspace_witness :
  tags (handleKeyDown (widget [js "a@b.co"; js "c@d.org"]) key_Backspace)
  = [js "a@b.co"]
  /\ handleKeyDown (setInputValue (widget [js "a@b.co"]) (js "x")) key_Backspace
     = setInputValue (widget [js "a@b.co"]) (js "x")
  /\ handleKeyDown (widget []) key_Backspace = widget [].
Proof.
  split; [|split].
  - destruct (handleKeyDown_backspace (widget [js "a@b.co"; js "c@d.org"]))
      as [H _].
    destruct H as [H _]; [simpl; congruence | reflexivity |].
    rewrite H. reflexivity.
  - destruct (handleKeyDown_backspace
                (setInputValue (widget [js "a@b.co"]) (js "x"))) as [_ H].
    apply H. left. simpl. congruence.
  - destruct (handleKeyDown_backspace (widget [])) as [_ H].
    apply H. right. reflexivity.
Defined.

Lemma handlePaste_tags w pastedText :
  tags (handlePaste w pastedText)
  = tags w ++ List.filter (fun email => negb (includes (tags w) email))
                (pasted_emails pastedText).
Proof.
  unfold handlePaste. fold (pasted_emails pastedText).
  destruct (List.filter _ (pasted_emails pastedText)) as [|e l]; simpl.
  - by rewrite app_nil_r.
  - done.
Qed.

(** What [handlePaste] does get right: every kept fragment is a valid
    address; each one ends up in the collection; and the collection stays
    free of duplicates when the paste itself repeats no address. *)
Lemma pasted_emails_valid pastedText email :
  email ∈ pasted_emails pastedText -> email <> [] /\ isValidEmail email = true.
Proof.
  unfold pasted_emails. rewrite list_elem_of_In, filter_In.
  intros [_ H]. apply andb_prop in H as [H1 H2]. by destruct email.
Qed.

Lemma handlePaste_keeps_all w pastedText email :
  email ∈ pasted_emails pastedText -> email ∈ tags (handlePaste w pastedText).
Proof.
  intros H. rewrite handlePaste_tags, elem_of_app.
  destruct (includes (tags w) email) eqn:E.
  - left. by apply includes_true.
  - right. rewrite list_elem_of_In, filter_In, <- list_elem_of_In.
    by rewrite E.
Qed.

Lemma handlePaste_NoDup w pastedText :
  NoDup (tags w) -> NoDup (pasted_emails pastedText) ->
  NoDup (tags (handlePaste w pastedText)).
Proof.
  intros Ht Hp. rewrite handlePaste_tags. apply NoDup_app.
  split; [done|].
  split; [|apply NoDup_ListNoDup, List.NoDup_filter, NoDup_ListNoDup, Hp].
  intros x Hx. rewrite list_elem_of_In, filter_In. intros [_ Hn].
  apply includes_true in Hx. rewrite Hx in Hn. discriminate.
Qed.

(** C1.  A paste that repeats one valid address adds it twice: the
    fragments are compared with the chips already there, not with each
    other, so the collection ends with a duplicate. *)
Theorem handlePaste_repeated_address :
  tags (handlePaste (widget []) (js "a@b.co,a@b.co"))
  = [js "a@b.co"; js "a@b.co"]
  /\ ~ NoDup (tags (handlePaste (widget []) (js "a@b.co,a@b.co"))).
Proof.
  assert (H : tags (handlePaste (widget []) (js "a@b.co,a@b.co"))
              = [js "a@b.co"; js "a@b.co"]) by (vm_compute; reflexivity).
  split; [exact H|]. rewrite H. intros Hnd.
  apply NoDup_cons_1_1 in Hnd. apply Hnd. apply list_elem_of_here.
Qed.

End TagInputProperties.

(** ** JSON: printing then parsing *)

Section JsonRoundTrip.

Lemma hexval_hexdigit d : d < 16 -> hexval (hexdigit d) = Some d.
Proof.
  intros Hd. unfold hexval, hexdigit, is_digit.
  destruct (N.ltb_spec d 10) as [H|H].
  - replace (48 <=? 48 + d) with true by (symmetry; apply N.leb_le; lia).
    replace (48 + d <=? 57) with true by (symmetry; apply N.leb_le; lia).
    simpl. f_equal. lia.
  - replace (87 + d <=? 57) with false by (symmetry; apply N.leb_gt; lia).
    rewrite andb_false_r.
    replace (97 <=? 87 + d) with true by (symmetry; apply N.leb_le; lia).
    replace (87 + d <=? 102) with true by (symmetry; apply N.leb_le; lia).
    simpl. f_equal. lia.
Qed.

Lemma unhex4_hex4 c :
  c < 65536 ->
  unhex4 (hexdigit (c / 4096 mod 16)) (hexdigit (c / 256 mod 16))
         (hexdigit (c / 16 mod 16)) (hexdigit (c mod 16)) = Some c.
Proof.
  intros Hc. unfold unhex4.
  rewrite !hexval_hexdigit by (apply N.mod_lt; lia).
  f_equal. zify. Z.to_euclidean_division_equations. lia.
Qed.

Lemma parse_chars_cons c s :
  parse_chars (c :: s) =
    if c =? 34 then Some ([], s)
    else if c =? 92 then
      match s with
      | [] => None
      | e :: s'' =>
          if e =? 117 then
            match s'' with
            | h1 :: h2 :: h3 :: h4 :: s3 =>
                match unhex4 h1 h2 h3 h4, parse_chars s3 with
                | Some u, Some (str, rest) => Some (u :: str, rest)
                | _, _ => None
                end
            | _ => None
            end
          else
            match unescape e, parse_chars s'' with
            | Some ch, Some (str, rest) => Some (ch :: str, rest)
            | _, _ => None
            end
      end
    else if c <? 32 then None
    else
      match parse_chars s with
      | Some (str, rest) => Some (c :: str, rest)
      | None => None
      end.
Proof. reflexivity. Qed.

Lemma parse_chars_unicode c s :
  c < 65536 -> parse_chars (unicode_escape c ++ s) = push c (parse_chars s).
Proof.
  intros Hc. unfold unicode_escape, hex4. simpl app.
  rewrite parse_chars_cons.
  change (92 =? 34) with false. change (92 =? 92) with true.
  change (117 =? 117) with true. cbv iota.
  rewrite unhex4_hex4 by done. reflexivity.
Qed.

Lemma parse_chars_literal c s :
  c <> 34 -> c <> 92 -> 32 <= c -> parse_chars (c :: s) = push c (parse_chars s).
Proof.
  intros H1 H2 H3. rewrite parse_chars_cons.
  rewrite (proj2 (N.eqb_neq c 34)) by done.
  rewrite (proj2 (N.eqb_neq c 92)) by done.
  rewrite (proj2 (N.ltb_ge c 32)) by done. reflexivity.
Qed.

Lemma parse_chars_escape_char c s :
  is_high_surrogate c = false ->
  parse_chars (escape_char c ++ s) = push c (parse_chars s).
Proof.
  intros Hh. unfold escape_char.
  destruct (N.eqb_spec c 8) as [->|?]; [reflexivity|].
  destruct (N.eqb_spec c 9) as [->|?]; [reflexivity|].
  destruct (N.eqb_spec c 10) as [->|?]; [reflexivity|].
  destruct (N.eqb_spec c 12) as [->|?]; [reflexivity|].
  destruct (N.eqb_spec c 13) as [->|?]; [reflexivity|].
  destruct (N.eqb_spec c 34) as [->|?]; [reflexivity|].
  destruct (N.eqb_spec c 92) as [->|?]; [reflexivity|].
  destruct (N.ltb_spec c 32) as [?|?].
  { apply parse_chars_unicode. lia. }
  rewrite Hh. simpl orb.
  destruct (is_low_surrogate c) eqn:Hl.
  - apply parse_chars_unicode. unfold is_low_surrogate in Hl.
    apply andb_prop in Hl as [_ Hl]. apply N.leb_le in Hl. lia.
  - simpl app. by apply parse_chars_literal.
Qed.

Lemma quote_chars_cons c s :
  quote_chars (c :: s) =
    if is_high_surrogate c then
      match s with
      | d :: s'' =>
          if is_low_surrogate d then c :: d :: quote_chars s''
          else unicode_escape c ++ quote_chars s
      | [] => unicode_escape c
      end
    else escape_char c ++ quote_chars s.
Proof. reflexivity. Qed.

Lemma parse_chars_quote_chars s rest :
  parse_chars (quote_chars s ++ 34 :: rest) = Some (s, rest).
Proof.
  remember (length s) as n eqn:Hn. revert s Hn.
  induction n as [n IH] using lt_wf_ind. intros s Hn.
  destruct s as [|c s]; [reflexivity|]. rewrite quote_chars_cons.
  destruct (is_high_surrogate c) eqn:Hh.
  - assert (Hc : 55296 <= c <= 56319).
    { unfold is_high_surrogate in Hh. apply andb_prop in Hh as [H1 H2].
      apply N.leb_le in H1, H2. lia. }
    destruct s as [|d s].
    + change (parse_chars (unicode_escape c ++ 34 :: rest) = Some ([c], rest)).
      rewrite parse_chars_unicode by lia. reflexivity.
    + destruct (is_low_surrogate d) eqn:Hl.
      * assert (Hd : 56320 <= d <= 57343).
        { unfold is_low_surrogate in Hl. apply andb_prop in Hl as [H1 H2].
          apply N.leb_le in H1, H2. lia. }
        simpl app. rewrite parse_chars_literal by lia.
        rewrite parse_chars_literal by lia.
        rewrite (IH (length s)) by (subst n; simpl; lia || done). reflexivity.
      * rewrite <- app_assoc. rewrite parse_chars_unicode by lia.
        rewrite (IH (length (d :: s))) by (subst n; simpl; lia || done).
        reflexivity.
  - rewrite <- app_assoc. rewrite parse_chars_escape_char by done.
    rewrite (IH (length s)) by (subst n; simpl; lia || done). reflexivity.
Qed.


Lemma stringify_Arr vs : stringify (Arr vs) = 91 :: elements_text vs ++ [93].
Proof. reflexivity. Qed.

Lemma stringify_Obj kvs : stringify (Obj kvs) = 123 :: members_text kvs ++ [125].
Proof. reflexivity. Qed.

Lemma stringify_Str s : stringify (Str s) = 34 :: quote_chars s ++ [34].
Proof. reflexivity. Qed.

(** The first code unit of a printed value opens a value: it is not
    white space and closes neither an array nor an object. *)
Lemma stringify_head v :
  plain v = true ->
  exists c s, stringify v = c :: s
              /\ is_ws c = false /\ (c =? 93) = false /\ (c =? 125) = false.
Proof.
  destruct v as [|[]|l|s|vs|kvs]; intros Hp; try discriminate.
  - by exists 110, (js "ull").
  - by exists 116, (js "rue").
  - by exists 102, (js "alse").
  - by exists 34, (quote_chars s ++ [34]).
  - by exists 91, (elements_text vs ++ [93]).
  - by exists 123, (members_text kvs ++ [125]).
Qed.

Lemma elements_text_cons v vs rest :
  elements_text (v :: vs) ++ 93 :: rest
  = stringify v ++ match vs with
                   | [] => 93 :: rest
                   | _ :: _ => 44 :: (elements_text vs ++ 93 :: rest)
                   end.
Proof. destruct vs; [reflexivity|]. simpl. by rewrite <- app_assoc. Qed.

Lemma elements_text_head v vs rest :
  plain v = true ->
  exists c s, elements_text (v :: vs) ++ 93 :: rest = c :: s
              /\ is_ws c = false /\ (c =? 93) = false.
Proof.
  intros Hp. destruct (stringify_head v Hp) as (c & s & Hc & Hws & H93 & _).
  rewrite elements_text_cons, Hc. simpl. eauto.
Qed.

Lemma members_text_cons k v kvs rest :
  members_text ((k, v) :: kvs) ++ 125 :: rest
  = 34 :: quote_chars k
    ++ 34 :: 58 :: stringify v
    ++ match kvs with
       | [] => 125 :: rest
       | _ :: _ => 44 :: (members_text kvs ++ 125 :: rest)
       end.
Proof.
  destruct kvs; simpl; unfold quote; simpl;
    repeat (rewrite <- app_assoc; simpl); reflexivity.
Qed.

Lemma parse_value_S f s :
  parse_value (S f) s =
    match skip_ws s with
    | [] => None
    | c :: s1 =>
        if c =? 123 then
          match skip_ws s1 with
          | d :: s2 =>
              if d =? 125 then Some (Obj [], s2)
              else
                match parse_members f s1 with
                | Some (kvs, rest) => Some (Obj kvs, rest)
                | None => None
                end
          | [] => None
          end
        else if c =? 91 then
          match skip_ws s1 with
          | d :: s2 =>
              if d =? 93 then Some (Arr [], s2)
              else
                match parse_elements f s1 with
                | Some (vs, rest) => Some (Arr vs, rest)
                | None => None
                end
          | [] => None
          end
        else if c =? 34 then
          match parse_chars s1 with
          | Some (str, rest) => Some (Str str, rest)
          | None => None
          end
        else if c =? 110 then
          match strip_prefix (js "ull") s1 with
          | Some rest => Some (Null, rest)
          | None => None
          end
        else if c =? 116 then
          match strip_prefix (js "rue") s1 with
          | Some rest => Some (Bool true, rest)
          | None => None
          end
        else if c =? 102 then
          match strip_prefix (js "alse") s1 with
          | Some rest => Some (Bool false, rest)
          | None => None
          end
        else
          match parse_number (c :: s1) with
          | Some (lexeme, rest) => Some (Num lexeme, rest)
          | None => None
          end
    end.
Proof. reflexivity. Qed.

Lemma parse_elements_S f s :
  parse_elements (S f) s =
    match parse_value f s with
    | Some (v, s1) =>
        match skip_ws s1 with
        | c :: s2 =>
            if c =? 44 then
              match parse_elements f s2 with
              | Some (vs, rest) => Some (v :: vs, rest)
              | None => None
              end
            else if c =? 93 then Some ([v], s2)
            else None
        | [] => None
        end
    | None => None
    end.
Proof. reflexivity. Qed.

Lemma parse_members_S f s :
  parse_members (S f) s =
    match skip_ws s with
    | q :: s1 =>
        if q =? 34 then
          match parse_chars s1 with
          | Some (k, s2) =>
              match skip_ws s2 with
              | colon :: s3 =>
                  if colon =? 58 then
                    match parse_value f s3 with
                    | Some (v, s4) =>
                        match skip_ws s4 with
                        | c :: s5 =>
                            if c =? 44 then
                              match parse_members f s5 with
                              | Some (kvs, rest) => Some ((k, v) :: kvs, rest)
                              | None => None
                              end
                            else if c =? 125 then Some ([(k, v)], s5)
                            else None
                        | [] => None
                        end
                    | None => None
                    end
                  else None
              | [] => None
              end
          | None => None
          end
        else None
    | [] => None
    end.
Proof. reflexivity. Qed.

Lemma skip_ws_head c s : is_ws c = false -> skip_ws (c :: s) = c :: s.
Proof. intros H. simpl. by rewrite H. Qed.

(** Enough fuel parses a printed value back, whatever follows it. *)
Lemma parse_stringify_fuel (f : nat) :
  (forall v rest, plain v = true -> (size v <= f)%nat ->
     parse_value f (stringify v ++ rest) = Some (v, rest))
  /\ (forall vs rest, vs <> [] -> forallb plain vs = true ->
        (list_sum (List.map (fun x => S (size x)) vs) <= f)%nat ->
        parse_elements f (elements_text vs ++ 93 :: rest) = Some (vs, rest))
  /\ (forall kvs rest, kvs <> [] ->
        forallb (fun kv => plain (snd kv)) kvs = true ->
        (list_sum (List.map (fun kv => S (size (snd kv))) kvs) <= f)%nat ->
        parse_members f (members_text kvs ++ 125 :: rest) = Some (kvs, rest)).
Proof.
  induction f as [|f (IHv & IHe & IHm)].
  { split; [|split].
    - intros v rest _ Hs. destruct v; simpl in Hs; lia.
    - intros [|v vs] rest Hne _ Hs; [done|]. simpl in Hs. lia.
    - intros [|kv kvs] rest Hne _ Hs; [done|]. simpl in Hs. lia. }
  split; [|split].
  - intros v rest Hp Hs.
    destruct v as [|[]|l|s|vs|kvs]; try discriminate; try reflexivity.
    + rewrite stringify_Str. simpl app. rewrite <- app_assoc. simpl app.
      rewrite parse_value_S. rewrite skip_ws_head by reflexivity.
      change (34 =? 123) with false. change (34 =? 91) with false.
      change (34 =? 34) with true. cbv iota.
      by rewrite parse_chars_quote_chars.
    + rewrite stringify_Arr. simpl app. rewrite <- app_assoc. simpl app.
      rewrite parse_value_S. rewrite skip_ws_head by reflexivity.
      change (91 =? 123) with false. change (91 =? 91) with true. cbv iota.
      destruct vs as [|v vs]; [reflexivity|].
      simpl in Hp. apply andb_prop in Hp as [Hpv Hpvs].
      destruct (elements_text_head v vs rest Hpv) as (c & s & Hc & Hws & H93).
      rewrite Hc. rewrite skip_ws_head by done. rewrite H93. rewrite <- Hc.
      rewrite IHe; [reflexivity|done| |].
      * simpl. by rewrite Hpv, Hpvs.
      * simpl in Hs. simpl. lia.
    + rewrite stringify_Obj. simpl app. rewrite <- app_assoc. simpl app.
      rewrite parse_value_S. rewrite skip_ws_head by reflexivity.
      change (123 =? 123) with true. cbv iota.
      destruct kvs as [|[k v] kvs]; [reflexivity|].
      rewrite members_text_cons at 1.
      rewrite skip_ws_head by reflexivity.
      change (34 =? 125) with false. cbv iota.
      rewrite IHm; [reflexivity|done|done|].
      simpl in Hs. simpl. lia.
  - intros [|v vs] rest Hne Hp Hs; [done|].
    simpl in Hp. apply andb_prop in Hp as [Hpv Hpvs].
    simpl in Hs.
    rewrite parse_elements_S, elements_text_cons.
    rewrite IHv by (done || lia).
    destruct vs as [|v' vs]; [reflexivity|].
    rewrite skip_ws_head by reflexivity.
    change (44 =? 44) with true. cbv iota.
    rewrite IHe; [reflexivity|done|done|]. simpl in *. lia.
  - intros [|[k v] kvs] rest Hne Hp Hs; [done|].
    simpl in Hp. apply andb_prop in Hp as [Hpv Hpvs].
    simpl in Hs.
    rewrite parse_members_S, members_text_cons.
    rewrite skip_ws_head by reflexivity.
    change (34 =? 34) with true. cbv iota.
    rewrite parse_chars_quote_chars.
    rewrite skip_ws_head by reflexivity.
    change (58 =? 58) with true. cbv iota.
    rewrite IHv by (done || lia).
    destruct kvs as [|kv' kvs]; [reflexivity|].
    rewrite skip_ws_head by reflexivity.
    change (44 =? 44) with true. cbv iota.
    rewrite IHm; [reflexivity|done|done|]. simpl in *. lia.
Qed.


Lemma elements_text_size vs :
  Forall (fun x => (size x <= length (stringify x))%nat) vs ->
  (list_sum (List.map (fun x => S (size x)) vs) <= S (length (elements_text vs)))%nat.
Proof.
  induction 1 as [|v vs Hv Hvs IH]; [simpl; lia|].
  destruct vs as [|v' vs].
  - simpl. lia.
  - change (elements_text (v :: v' :: vs))
      with (stringify v ++ 44 :: elements_text (v' :: vs)).
    change (List.map (fun x => S (size x)) (v :: v' :: vs))
      with (S (size v) :: List.map (fun x => S (size x)) (v' :: vs)).
    remember (elements_text (v' :: vs)) as t.
    remember (List.map (fun x => S (size x)) (v' :: vs)) as ns.
    rewrite length_app. simpl. lia.
Qed.

Lemma members_text_size kvs :
  Forall (fun kv => (size (snd kv) <= length (stringify (snd kv)))%nat) kvs ->
  (list_sum (List.map (fun kv => S (size (snd kv))) kvs)
   <= S (length (members_text kvs)))%nat.
Proof.
  induction 1 as [|[k v] kvs Hv Hvs IH]; [simpl; lia|].
  destruct kvs as [|kv' kvs].
  - simpl. rewrite length_app. simpl. rewrite length_app. simpl in Hv. simpl. lia.
  - change (members_text ((k, v) :: kv' :: kvs))
      with (quote k ++ 58 :: stringify v ++ 44 :: members_text (kv' :: kvs)).
    change (List.map (fun kv => S (size (snd kv))) ((k, v) :: kv' :: kvs))
      with (S (size v) :: List.map (fun kv => S (size (snd kv))) (kv' :: kvs)).
    remember (members_text (kv' :: kvs)) as t.
    remember (List.map (fun kv => S (size (snd kv))) (kv' :: kvs)) as ns.
    rewrite length_app. simpl length. rewrite !length_app. simpl length. simpl in Hv. simpl list_sum. lia.
Qed.

Lemma size_le_text (n : nat) :
  forall v, (size v <= n)%nat -> plain v = true ->
            (size v <= length (stringify v))%nat.
Proof.
  induction n as [|n IH]; intros v Hn Hp.
  { destruct v; simpl in Hn; lia. }
  destruct v as [|[]|l|s|vs|kvs]; try discriminate; try (simpl; lia).
  - rewrite stringify_Arr. simpl length. rewrite length_app. simpl length.
    change (size (Arr vs)) with (S (list_sum (List.map (fun x => S (size x)) vs))) in *.
    assert (HF : Forall (fun x => (size x <= length (stringify x))%nat) vs).
    { simpl in Hp. apply Nat.succ_le_mono in Hn.
      revert Hn Hp. induction vs as [|x vs IHvs]; intros Hn Hp; [constructor|].
      simpl in Hn, Hp. apply andb_prop in Hp as [Hx Hvs].
      constructor; [apply IH; [lia|done]|apply IHvs; [lia|done]]. }
    apply elements_text_size in HF. lia.
  - rewrite stringify_Obj. simpl length. rewrite length_app. simpl length.
    change (size (Obj kvs))
      with (S (list_sum (List.map (fun kv => S (size (snd kv))) kvs))) in *.
    assert (HF : Forall (fun kv => (size (snd kv) <= length (stringify (snd kv)))%nat) kvs).
    { simpl in Hp. apply Nat.succ_le_mono in Hn.
      revert Hn Hp. induction kvs as [|x kvs IHkvs]; intros Hn Hp; [constructor|].
      simpl in Hn, Hp. apply andb_prop in Hp as [Hx Hkvs].
      constructor; [apply IH; [lia|done]|apply IHkvs; [lia|done]]. }
    apply members_text_size in HF. lia.
Qed.

(** [JSON.parse(JSON.stringify(v))] gives [v] back for every value made
    of strings, booleans, [null], arrays and objects. *)
Lemma parse_stringify v : plain v = true -> Json.parse (stringify v) = Some v.
Proof.
  intros Hp. unfold Json.parse.
  destruct (parse_stringify_fuel (fuel_for (stringify v))) as [H _].
  specialize (H v [] Hp). rewrite app_nil_r in H.
  rewrite H; [reflexivity|].
  pose proof (size_le_text (size v) v (Nat.le_refl _) Hp).
  unfold fuel_for. lia.
Qed.

End JsonRoundTrip.

(** ** JSON: the fuel of [parse] is enough *)

Section JsonFuel.

Lemma skip_ws_length s : (length (skip_ws s) <= length s)%nat.
Proof.
  induction s as [|c s IH]; simpl; [lia|].
  destruct (is_ws c); simpl; lia.
Qed.

Lemma skip_ws_cons_length s c s' :
  skip_ws s = c :: s' -> (S (length s') <= length s)%nat.
Proof.
  intros H. pose proof (skip_ws_length s) as Hl. rewrite H in Hl. exact Hl.
Qed.

Lemma parse_chars_length s : forall str rest,
  parse_chars s = Some (str, rest) -> (length rest < length s)%nat.
Proof.
  remember (length s) as n eqn:Hn. revert s Hn.
  induction n as [n IH] using lt_wf_ind. intros s Hn str rest.
  destruct s as [|c s]; [discriminate|]. rewrite parse_chars_cons.
  destruct (c =? 34).
  { intros [= <- <-]. subst n. simpl. lia. }
  destruct (c =? 92).
  - destruct s as [|e s]; [discriminate|].
    destruct (e =? 117).
    + destruct s as [|h1 [|h2 [|h3 [|h4 s]]]]; try discriminate.
      destruct (unhex4 h1 h2 h3 h4); [|discriminate].
      destruct (parse_chars s) as [[str' rest']|] eqn:E; [|discriminate].
      intros [= <- <-]. apply (IH (length s)) in E; subst n; simpl in *; lia.
    + destruct (unescape e); [|discriminate].
      destruct (parse_chars s) as [[str' rest']|] eqn:E; [|discriminate].
      intros [= <- <-]. apply (IH (length s)) in E; subst n; simpl in *; lia.
  - destruct (c <? 32); [discriminate|].
    destruct (parse_chars s) as [[str' rest']|] eqn:E; [|discriminate].
    intros [= <- <-]. apply (IH (length s)) in E; subst n; simpl in *; lia.
Qed.

Lemma strip_prefix_length lit : forall s rest,
  strip_prefix lit s = Some rest -> (length rest <= length s)%nat.
Proof.
  induction lit as [|a lit IH]; intros s rest; simpl.
  - intros [= <-]. lia.
  - destruct s as [|b s]; [discriminate|].
    destruct (a =? b); [|discriminate].
    intros H. apply IH in H. simpl. lia.
Qed.

Lemma span_digits_length s : forall ds rest,
  span_digits s = (ds, rest) -> (length rest <= length s)%nat.
Proof.
  induction s as [|c s IH]; intros ds rest; simpl.
  - intros [= <- <-]. simpl. lia.
  - destruct (is_digit c).
    + destruct (span_digits s) as [ds' rest'] eqn:E.
      intros [= <- <-]. specialize (IH _ _ eq_refl). lia.
    + intros [= <- <-]. simpl. lia.
Qed.

Lemma parse_int_length s i rest :
  parse_int s = Some (i, rest) -> (length rest < length s)%nat.
Proof.
  unfold parse_int.
  assert (H : forall sign (s1 : list N) i rest,
            match s1 with
            | [] => None
            | c :: s2 =>
                if c =? 48 then Some (sign ++ [c], s2)
                else if is_digit c then
                  let (ds, rest) := span_digits s2 in Some (sign ++ c :: ds, rest)
                else None
            end = Some (i, rest) -> (length rest < length s1)%nat).
  { intros sign [|c s2] i' rest'; [discriminate|].
    destruct (c =? 48); [intros [= <- <-]; simpl; lia|].
    destruct (is_digit c); [|discriminate].
    destruct (span_digits s2) as [ds r] eqn:E. intros [= <- <-].
    apply span_digits_length in E. simpl. lia. }
  destruct s as [|c s]; [discriminate|].
  destruct (c =? 45); intros Hs.
  - apply (H [c] s) in Hs. simpl. lia.
  - apply (H [] (c :: s)) in Hs. exact Hs.
Qed.

Lemma parse_frac_length s f rest :
  parse_frac s = Some (f, rest) -> (length rest <= length s)%nat.
Proof.
  unfold parse_frac. destruct s as [|c s]; [intros [= <- <-]; lia|].
  destruct (c =? 46).
  - destruct (span_digits s) as [[|d ds] r] eqn:E; [discriminate|].
    intros [= <- <-]. apply span_digits_length in E. simpl. lia.
  - intros [= <- <-]. lia.
Qed.

Lemma parse_exp_length s e rest :
  parse_exp s = Some (e, rest) -> (length rest <= length s)%nat.
Proof.
  unfold parse_exp. destruct s as [|c s]; [intros [= <- <-]; lia|].
  destruct ((c =? 101) || (c =? 69)); [|intros [= <- <-]; lia].
  destruct s as [|d s].
  - simpl. discriminate.
  - destruct ((d =? 43) || (d =? 45)).
    + destruct (span_digits s) as [[|x ds] r] eqn:E; [discriminate|].
      intros [= <- <-]. apply span_digits_length in E. simpl. lia.
    + destruct (span_digits (d :: s)) as [[|x ds] r] eqn:E; [discriminate|].
      intros [= <- <-]. apply span_digits_length in E. simpl in *. lia.
Qed.

Lemma parse_number_length s lexeme rest :
  parse_number s = Some (lexeme, rest) -> (length rest < length s)%nat.
Proof.
  unfold parse_number.
  destruct (parse_int s) as [[i s1]|] eqn:Ei; [|discriminate].
  destruct (parse_frac s1) as [[f s2]|] eqn:Ef; [|discriminate].
  destruct (parse_exp s2) as [[e s3]|] eqn:Ee; [|discriminate].
  intros [= <- <-].
  apply parse_int_length in Ei. apply parse_frac_length in Ef.
  apply parse_exp_length in Ee. lia.
Qed.

(** Every parser reads at least one code unit. *)
Lemma parse_consumes (f : nat) :
  (forall s v rest, parse_value f s = Some (v, rest) ->
                    (length rest < length s)%nat)
  /\ (forall s vs rest, parse_elements f s = Some (vs, rest) ->
                        (length rest < length s)%nat)
  /\ (forall s kvs rest, parse_members f s = Some (kvs, rest) ->
                         (length rest < length s)%nat).
Proof.
  induction f as [|f (IHv & IHe & IHm)]; [repeat split; discriminate|].
  split; [|split].
  - intros s v rest. rewrite parse_value_S.
    destruct (skip_ws s) as [|c s1] eqn:Es; [discriminate|].
    apply skip_ws_cons_length in Es.
    destruct (c =? 123).
    { destruct (skip_ws s1) as [|d s2] eqn:Es1; [discriminate|].
      apply skip_ws_cons_length in Es1.
      destruct (d =? 125); [intros [= <- <-]; lia|].
      destruct (parse_members f s1) as [[kvs r]|] eqn:E; [|discriminate].
      intros [= <- <-]. apply IHm in E. lia. }
    destruct (c =? 91).
    { destruct (skip_ws s1) as [|d s2] eqn:Es1; [discriminate|].
      apply skip_ws_cons_length in Es1.
      destruct (d =? 93); [intros [= <- <-]; lia|].
      destruct (parse_elements f s1) as [[vs r]|] eqn:E; [|discriminate].
      intros [= <- <-]. apply IHe in E. lia. }
    destruct (c =? 34).
    { destruct (parse_chars s1) as [[str r]|] eqn:E; [|discriminate].
      intros [= <- <-]. apply parse_chars_length in E. lia. }
    destruct (c =? 110).
    { destruct (strip_prefix (js "ull") s1) as [r|] eqn:E; [|discriminate].
      intros [= <- <-]. apply strip_prefix_length in E. lia. }
    destruct (c =? 116).
    { destruct (strip_prefix (js "rue") s1) as [r|] eqn:E; [|discriminate].
      intros [= <- <-]. apply strip_prefix_length in E. lia. }
    destruct (c =? 102).
    { destruct (strip_prefix (js "alse") s1) as [r|] eqn:E; [|discriminate].
      intros [= <- <-]. apply strip_prefix_length in E. lia. }
    destruct (parse_number (c :: s1)) as [[lexeme r]|] eqn:E; [|discriminate].
    intros [= <- <-]. apply parse_number_length in E. simpl in E. lia.
  - intros s vs rest. rewrite parse_elements_S.
    destruct (parse_value f s) as [[v s1]|] eqn:Ev; [|discriminate].
    apply IHv in Ev.
    destruct (skip_ws s1) as [|c s2] eqn:Es1; [discriminate|].
    apply skip_ws_cons_length in Es1.
    destruct (c =? 44).
    { destruct (parse_elements f s2) as [[vs' r]|] eqn:E; [|discriminate].
      intros [= <- <-]. apply IHe in E. lia. }
    destruct (c =? 93); [|discriminate]. intros [= <- <-]. lia.
  - intros s kvs rest. rewrite parse_members_S.
    destruct (skip_ws s) as [|q s1] eqn:Es; [discriminate|].
    apply skip_ws_cons_length in Es.
    destruct (q =? 34); [|discriminate].
    destruct (parse_chars s1) as [[k s2]|] eqn:Ek; [|discriminate].
    apply parse_chars_length in Ek.
    destruct (skip_ws s2) as [|colon s3] eqn:Es2; [discriminate|].
    apply skip_ws_cons_length in Es2.
    destruct (colon =? 58); [|discriminate].
    destruct (parse_value f s3) as [[v s4]|] eqn:Ev; [|discriminate].
    apply IHv in Ev.
    destruct (skip_ws s4) as [|c s5] eqn:Es4; [discriminate|].
    apply skip_ws_cons_length in Es4.
    destruct (c =? 44).
    { destruct (parse_members f s5) as [[kvs' r]|] eqn:E; [|discriminate].
      intros [= <- <-]. apply IHm in E. lia. }
    destruct (c =? 125); [|discriminate]. intros [= <- <-]. lia.
Qed.

(** A parse that succeeds with some fuel succeeds, with the same result,
    with any fuel above twice the length of the text. *)
Lemma parse_fuel_enough (f : nat) :
  (forall s r, parse_value f s = Some r ->
     forall g, (2 * length s + 1 <= g)%nat -> parse_value g s = Some r)
  /\ (forall s r, parse_elements f s = Some r ->
        forall g, (2 * length s + 2 <= g)%nat -> parse_elements g s = Some r)
  /\ (forall s r, parse_members f s = Some r ->
        forall g, (2 * length s + 2 <= g)%nat -> parse_members g s = Some r).
Proof.
  induction f as [|f (IHv & IHe & IHm)]; [repeat split; discriminate|].
  destruct (parse_consumes f) as (Cv & Ce & Cm).
  split; [|split].
  - intros s r Hr [|g] Hg; [lia|]. revert Hr. rewrite !parse_value_S.
    destruct (skip_ws s) as [|c s1] eqn:Es; [discriminate|].
    apply skip_ws_cons_length in Es.
    destruct (c =? 123).
    { destruct (skip_ws s1) as [|d s2] eqn:Es1; [discriminate|].
      destruct (d =? 125); [done|].
      destruct (parse_members f s1) as [[kvs r']|] eqn:E; [|discriminate].
      intros Hr. rewrite (IHm _ _ E g) by lia. exact Hr. }
    destruct (c =? 91); [|done].
    destruct (skip_ws s1) as [|d s2] eqn:Es1; [discriminate|].
    destruct (d =? 93); [done|].
    destruct (parse_elements f s1) as [[vs r']|] eqn:E; [|discriminate].
    intros Hr. rewrite (IHe _ _ E g) by lia. exact Hr.
  - intros s r Hr [|g] Hg; [lia|]. revert Hr. rewrite !parse_elements_S.
    destruct (parse_value f s) as [[v s1]|] eqn:Ev; [|discriminate].
    rewrite (IHv _ _ Ev g) by lia. apply Cv in Ev.
    destruct (skip_ws s1) as [|c s2] eqn:Es1; [discriminate|].
    apply skip_ws_cons_length in Es1.
    destruct (c =? 44); [|done].
    destruct (parse_elements f s2) as [[vs' r']|] eqn:E; [|discriminate].
    intros Hr. rewrite (IHe _ _ E g) by lia. exact Hr.
  - intros s r Hr [|g] Hg; [lia|]. revert Hr. rewrite !parse_members_S.
    destruct (skip_ws s) as [|q s1] eqn:Es; [discriminate|].
    apply skip_ws_cons_length in Es.
    destruct (q =? 34); [|discriminate].
    destruct (parse_chars s1) as [[k s2]|] eqn:Ek; [|discriminate].
    apply parse_chars_length in Ek.
    destruct (skip_ws s2) as [|colon s3] eqn:Es2; [discriminate|].
    apply skip_ws_cons_length in Es2.
    destruct (colon =? 58); [|discriminate].
    destruct (parse_value f s3) as [[v s4]|] eqn:Ev; [|discriminate].
    rewrite (IHv _ _ Ev g) by lia. apply Cv in Ev.
    destruct (skip_ws s4) as [|c s5] eqn:Es4; [discriminate|].
    apply skip_ws_cons_length in Es4.
    destruct (c =? 44); [|done].
    destruct (parse_members f s5) as [[kvs' r']|] eqn:E; [|discriminate].
    intros Hr. rewrite (IHm _ _ E g) by lia. exact Hr.
Qed.

(** [parse] fails on a text only if no amount of fuel reads a value
    followed by white space alone. *)
Lemma parse_complete f s v rest :
  parse_value f s = Some (v, rest) -> skip_ws rest = [] ->
  Json.parse s = Some v.
Proof.
  intros Hp Hr. unfold Json.parse.
  destruct (parse_fuel_enough f) as [H _].
  rewrite (H s (v, rest) Hp (fuel_for s)) by (unfold fuel_for; lia).
  by rewrite Hr.
Qed.

End JsonFuel.

(** ** The persistence helpers *)

Section Persistence.

Implicit Types (w : World) (d : Draft).

(** C4.  [getStoredData] always returns a value, and it returns the
    empty record when the key is absent, when its content is not JSON,
    and when reaching the storage raises. *)
Theorem getStoredData_never_raises w :
  (exists v, getStoredData w = Ok v)
  /\ (localStorage w !! STORAGE_KEY = None
      \/ (exists text, localStorage w !! STORAGE_KEY = Some text
                       /\ Json.parse text = None)
      \/ storage_denied w = true ->
      getStoredData w = Ok (Obj [])).
Proof.
  unfold getStoredData, getItem, JSON_parse.
  destruct (has_window w); simpl; [|split; eauto].
  destruct (storage_denied w); simpl; [split; eauto|].
  destruct (localStorage w !! STORAGE_KEY) as [text|] eqn:E; simpl;
    [|split; eauto].
  destruct (str_truthy text); [|split; eauto].
  destruct (Json.parse text) as [v|] eqn:P; simpl.
  - split; [eauto|]. intros [H|[(t & Ht & Hp)|H]]; try discriminate.
    injection Ht as <-. congruence.
  - split; eauto.
Qed.

Lemma getStoredData_never_raises_witness :
  getStoredData (browser {[ STORAGE_KEY := js "{oops" ]}) = Ok (Obj []).
Proof.
  apply (getStoredData_never_raises (browser {[ STORAGE_KEY := js "{oops" ]})).
  right. left. exists (js "{oops"). split; vm_compute; reflexivity.
Defined.

Lemma plain_strings (l : list (list N)) : forallb plain (Str <$> l) = true.
Proof. induction l; simpl; auto. Qed.

Lemma draft_object_plain d : plain (draft_object d) = true.
Proof.
  unfold draft_object. simpl. rewrite plain_strings. simpl.
  destruct (draft_resumeData d), (draft_resumeName d); reflexivity.
Qed.

(** The fields of a stored draft, as [prop] reads them. *)
Lemma draft_object_fields d :
  prop (draft_object d) recipients = Ok (Some (Arr (Str <$> draft_recipients d)))
  /\ prop (draft_object d) subject = Ok (Some (Str (draft_subject d)))
  /\ prop (draft_object d) body = Ok (Some (Str (draft_body d)))
  /\ prop (draft_object d) resumeData = Ok (Str <$> draft_resumeData d)
  /\ prop (draft_object d) resumeName = Ok (Str <$> draft_resumeName d).
Proof.
  destruct d as [r s b [rd|] [rn|]]; repeat split; vm_compute; reflexivity.
Qed.

Lemma getStoredData_parsed w text v :
  has_window w = true -> storage_denied w = false ->
  localStorage w !! STORAGE_KEY = Some text -> text <> [] ->
  Json.parse text = Some v ->
  getStoredData w = Ok v.
Proof.
  intros Hw Hd Ht Hne Hp. unfold getStoredData, getItem, JSON_parse.
  rewrite Hw, Hd. simpl. rewrite Ht. destruct text; [done|]. simpl.
  by rewrite Hp.
Qed.

(** C5.  In a browser whose storage accepts the write, saving a draft
    and loading it gives the same record back, field for field. *)
Theorem save_then_load w d :
  has_window w = true -> storage_denied w = false -> storage_full w = false ->
  exists w' stored,
    setStoredData w (draft_object d) = Ok w'
    /\ getStoredData w' = Ok stored
    /\ stored = draft_object d
    /\ prop stored recipients = Ok (Some (Arr (Str <$> draft_recipients d)))
    /\ prop stored subject = Ok (Some (Str (draft_subject d)))
    /\ prop stored body = Ok (Some (Str (draft_body d)))
    /\ prop stored resumeData = Ok (Str <$> draft_resumeData d)
    /\ prop stored resumeName = Ok (Str <$> draft_resumeName d).
Proof.
  intros Hw Hd Hf.
  exists (set_items w (<[STORAGE_KEY := stringify (draft_object d)]> (localStorage w))),
         (draft_object d).
  split; [|split; [|split; [reflexivity|apply draft_object_fields]]].
  - unfold setStoredData, setItem. by rewrite Hw, Hd, Hf.
  - apply getStoredData_parsed with (text := stringify (draft_object d)); try done.
    + simpl. apply lookup_insert_eq.
    + apply parse_stringify, draft_object_plain.
Qed.

Lemma save_then_load_witness :
  let d := {| draft_recipients := [js "a@b.co"; js "c@d.org"];
              draft_subject := js "Hello";
              draft_body := js "A body of ten.";
              draft_resumeData := Some (js "data:application/pdf;base64,JVBERg==");
              draft_resumeName := Some (js "resume.pdf") |} in
  exists w' stored,
    setStoredData (browser ∅) (draft_object d) = Ok w'
    /\ getStoredData w' = Ok stored
    /\ stored = draft_object d.
Proof.
  intros d.
  destruct (save_then_load (browser ∅) d) as (w' & stored & H1 & H2 & H3 & _);
    [reflexivity|reflexivity|reflexivity|].
  exists w', stored. auto.
Defined.


(** C9, as the claim states it, fails in a browser with nothing stored:
    the subject and the body start from the template, not empty. *)
Lemma defaultValues_not_empty :
  ~ (forall w stored dv,
       localStorage w !! STORAGE_KEY = None ->
       getStoredData w = Ok stored ->
       defaultValues stored = Ok dv ->
       default_recipients dv = Arr [] /\ default_subject dv = Str []
       /\ default_body dv = Str [] /\ default_resume dv = None).
Proof.
  intros H.
  destruct (H (browser ∅) (Obj [])
              {| default_recipients := Arr [];
                 default_subject := Str DEFAULT_SUBJECT;
                 default_body := Str DEFAULT_BODY;
                 default_resume := None |})
    as (_ & Hs & _); [reflexivity|reflexivity|reflexivity|].
  discriminate Hs.
Qed.

(** C9, amended.  With nothing stored, an empty item or an empty
    record, the form starts with no recipient, the template subject
    and body, and no file.  With a stored draft, it starts with the
    stored recipients, the stored subject and body where they are not
    empty and the template where they are, and no file; the stored
    file name is shown when the stored encoding and name are both
    present and not empty. *)
Theorem defaultValues_at_mount w :
  (localStorage w !! STORAGE_KEY = None
   \/ localStorage w !! STORAGE_KEY = Some []
   \/ localStorage w !! STORAGE_KEY = Some (js "{}") ->
   exists stored,
     getStoredData w = Ok stored
     /\ defaultValues stored
        = Ok {| default_recipients := Arr [];
                default_subject := Str DEFAULT_SUBJECT;
                default_body := Str DEFAULT_BODY;
                default_resume := None |}
     /\ mount_storedFileName stored = Ok None)
  /\ (forall d,
        has_window w = true -> storage_denied w = false ->
        localStorage w !! STORAGE_KEY = Some (stringify (draft_object d)) ->
        exists stored,
          getStoredData w = Ok stored
          /\ defaultValues stored
             = Ok {| default_recipients := Arr (Str <$> draft_recipients d);
                     default_subject :=
                       Str (string_or (draft_subject d) DEFAULT_SUBJECT);
                     default_body := Str (string_or (draft_body d) DEFAULT_BODY);
                     default_resume := None |}
          /\ mount_storedFileName stored
             = Ok match draft_resumeData d, draft_resumeName d with
                  | Some (_ :: _), Some (c :: n) => Some (Str (c :: n))
                  | _, _ => None
                  end).
Proof.
  split.
  - intros H. exists (Obj []). split; [|split; reflexivity].
    unfold getStoredData, getItem.
    destruct (has_window w); [|reflexivity]. simpl.
    destruct (storage_denied w); [reflexivity|]. simpl.
    destruct H as [-> | [-> | ->]]; reflexivity.
  - intros d Hw Hd Hs. exists (draft_object d). split.
    + apply getStoredData_parsed with (text := stringify (draft_object d));
        try done. apply parse_stringify, draft_object_plain.
    + destruct d as [r s b rd rn]. simpl. split.
      * destruct rd, rn, s, b; reflexivity.
      * destruct rd as [[|]|], rn as [[|]|]; reflexivity.
Qed.

Lemma defaultValues_at_mount_witness :
  let d := {| draft_recipients := [js "a@b.co"];
              draft_subject := [];
              draft_body := js "Dear all, hello.";
              draft_resumeData := None;
              draft_resumeName := None |} in
  (exists stored,
     getStoredData (browser ∅) = Ok stored
     /\ defaultValues stored
        = Ok {| default_recipients := Arr [];
                default_subject := Str DEFAULT_SUBJECT;
                default_body := Str DEFAULT_BODY;
                default_resume := None |})
  /\ (exists stored,
        getStoredData (browser {[ STORAGE_KEY := stringify (draft_object d) ]})
        = Ok stored
        /\ defaultValues stored
           = Ok {| default_recipients := Arr [Str (js "a@b.co")];
                   default_subject := Str DEFAULT_SUBJECT;
                   default_body := Str (js "Dear all, hello.");
                   default_resume := None |}).
Proof.
  intros d. split.
  - destruct (defaultValues_at_mount (browser ∅)) as [H _].
    destruct H as (stored & H1 & H2 & _); [left; reflexivity|].
    exists stored. auto.
  - destruct (defaultValues_at_mount
                (browser {[ STORAGE_KEY := stringify (draft_object d) ]}))
      as [_ H].
    destruct (H d) as (stored & H1 & H2 & _);
      [reflexivity|reflexivity|vm_compute; reflexivity|].
    exists stored. auto.
Defined.

End Persistence.

(** ** Submission *)

Section Submission.

Implicit Types (c : Controller) (data : FormData) (storedData : value).

(** C6.  When no file was chosen in the form: with a stored encoding
    that is not empty and that [fetch] turns into a blob, and the
    stored name [resume.pdf], exactly one payload is sent and it
    carries a file named [resume.pdf]; with no stored encoding or no
    stored name, exactly one payload is sent and it carries no file. *)
Theorem onSubmit_stored_attachment auth storedData data fetch_blob :
  no_new_file data ->
  (forall enc blob,
     prop storedData resumeData = Ok (Some (Str enc)) -> enc <> [] ->
     prop storedData resumeName = Ok (Some (Str (js "resume.pdf"))) ->
     fetch_blob enc = Some blob ->
     exists formData file,
       sent fetch_blob (onSubmit auth storedData data) = [formData]
       /\ attachment formData = Some file
       /\ file_name file = js "resume.pdf"
       /\ file_bits file = blob)
  /\ (prop storedData resumeData = Ok None
      \/ prop storedData resumeName = Ok None ->
      exists formData,
        sent fetch_blob (onSubmit auth storedData data) = [formData]
        /\ attachment formData = None).
Proof.
  intros Hnew.
  assert (Hres : match data_resume data with
                 | Some (_ :: _) => False
                 | _ => True
                 end)
    by (destruct Hnew as [-> | ->]; exact I).
  unfold onSubmit. split.
  - intros enc blob Hd Hne Hn Hf. rewrite Hd, Hn.
    destruct enc as [|e enc]; [done|].
    destruct (data_resume data) as [[|? ?]|]; try done;
      simpl; rewrite Hf; simpl;
      eexists _, _; (split; [reflexivity|]); vm_compute; auto.
  - intros Habs.
    destruct (data_resume data) as [[|? ?]|]; try done.
    all: destruct (prop storedData resumeData) as [[x|]|err] eqn:Hd;
      [|by eexists|destruct Habs as [?|Hn]; [done|];
                   destruct storedData; discriminate].
    all: destruct Habs as [?|Hn]; [done|]; rewrite Hn;
      destruct (truthy x); by eexists.
Qed.

Lemma onSubmit_stored_attachment_witness :
  let auth := {| email := js "me@x.io"; password := js "secret" |} in
  let data := {| data_recipients := [js "a@b.co"]; data_subject := js "Hi";
                 data_body := js "0123456789"; data_resume := None |} in
  let stored d n :=
    draft_object {| draft_recipients := []; draft_subject := [];
                    draft_body := []; draft_resumeData := d;
                    draft_resumeName := n |} in
  let fetch_blob (url : list N) := Some [37; 80; 68; 70] in
  (exists formData file,
     sent fetch_blob
       (onSubmit auth (stored (Some (js "data:application/pdf;base64,JVBERg=="))
                              (Some (js "resume.pdf"))) data) = [formData]
     /\ attachment formData = Some file
     /\ file_name file = js "resume.pdf"
     /\ file_bits file = [37; 80; 68; 70])
  /\ (exists formData,
        sent fetch_blob (onSubmit auth (stored None (Some (js "resume.pdf"))) data)
        = [formData]
        /\ attachment formData = None).
Proof.
  intros auth data stored fetch_blob. split.
  - destruct (onSubmit_stored_attachment auth
                (stored (Some (js "data:application/pdf;base64,JVBERg=="))
                        (Some (js "resume.pdf"))) data fetch_blob) as [H _];
      [left; reflexivity|].
    apply (H (js "data:application/pdf;base64,JVBERg==") [37; 80; 68; 70]);
      [reflexivity|discriminate|reflexivity|reflexivity].
  - destruct (onSubmit_stored_attachment auth
                (stored None (Some (js "resume.pdf"))) data fetch_blob) as [_ H];
      [left; reflexivity|].
    apply H. left. reflexivity.
Defined.

(** *** The state machine *)

Lemma exec_frame h : forall c,
  world (exec c h) = world c /\ formValues (exec c h) = formValues c.
Proof.
  induction h as [| e | url k IH | formData k IH]; intros c; simpl; auto.
  destruct (IH (mutate c formData)) as [-> ->]. auto.
Qed.

(** While the observed mutation is pending the Send button is
    disabled: no click reaches [onSubmit]. *)
Lemma step_click_while_submitting c :
  phase c = Submitting -> step c ClickSend = None.
Proof.
  unfold phase, step, isPending.
  destruct (observed c) as [[id []]|]; done.
Qed.

(** C8.  No event of a submission (the click on Send, a [fetch] that
    resolves or rejects, a send that succeeds or fails) changes the
    form values or the browser's storage; and once the observed send
    has settled, either way, the Send button is enabled again. *)
Theorem submission_leaves_draft c e c' :
  e <> ClickClear ->
  step c e = Some c' ->
  formValues c' = formValues c
  /\ world c' = world c
  /\ getStoredData (world c') = getStoredData (world c)
  /\ (forall id ok, e = SendSettled id ok ->
        observed c = Some (id, Pending) -> isPending c' = false).
Proof.
  intros Hne Hstep.
  assert (H : formValues c' = formValues c /\ world c' = world c).
  { destruct e as [| | i blob | i | id ok]; simpl in Hstep; try done.
    - destruct (isPending c); [done|].
      destruct (schema_lengths_ok (formValues c)); [|by injection Hstep as <-].
      destruct (getStoredData (world c)) as [storedData|]; [|done].
      injection Hstep as <-.
      destruct (exec_frame (onSubmit (auth_data c) storedData (formValues c)) c).
      auto.
    - destruct (fetches c !! i) as [[url k]|]; [|done].
      injection Hstep as <-.
      destruct (exec_frame (k blob) (set_fetches c (delete i (fetches c)))) as [-> ->].
      auto.
    - destruct (fetches c !! i); [|done]. by injection Hstep as <-.
    - destruct (bool_decide _); [|done]. by injection Hstep as <-. }
  destruct H as [Hf Hw]. split; [done|]. split; [done|].
  split; [by rewrite Hw|].
  intros id ok -> Hobs. simpl in Hstep.
  destruct (bool_decide _); [|done]. injection Hstep as <-.
  unfold isPending, settle. simpl. rewrite Hobs, Nat.eqb_refl.
  by destruct ok.
Qed.

Lemma submission_leaves_draft_witness :
  match step sample_controller ClickSend with
  | Some c' =>
      formValues c' = formValues sample_controller
      /\ world c' = world sample_controller
  | None => False
  end.
Proof.
  destruct (step sample_controller ClickSend) as [c'|] eqn:E.
  - destruct (submission_leaves_draft sample_controller ClickSend c')
      as (H1 & H2 & _); [discriminate|exact E|].
    split; assumption.
  - vm_compute in E. discriminate E.
Defined.

(** C7.  With a stored attachment, a click on Send starts a [fetch]
    and leaves the button enabled until the [fetch] resolves.  Two
    clicks thus start two fetches; when the first resolves its send is
    in flight and the phase is Submitting, and when the second resolves
    a second send is issued while the first is still in flight. *)
Theorem two_sends_in_flight :
  exists c1 c2,
    reachable c1
    /\ phase c1 = Submitting
    /\ length (sends c1) = 1%nat
    /\ step c1 (FetchResolved 0 sample_blob) = Some c2
    /\ reachable c2
    /\ phase c2 = Submitting
    /\ length (sends c2) = 2%nat.
Proof.
  eexists _, _. split.
  { exists sample_controller,
      [ClickSend; ClickSend; FetchResolved 0 sample_blob].
    split; [done|]. vm_compute. reflexivity. }
  split; [reflexivity|]. split; [reflexivity|].
  split; [vm_compute; reflexivity|]. split.
  { exists sample_controller,
      [ClickSend; ClickSend; FetchResolved 0 sample_blob;
       FetchResolved 0 sample_blob].
    split; [done|]. vm_compute. reflexivity. }
  split; reflexivity.
Qed.

End Submission.

(** ** The tag input widget under its events *)

Section TagInputEvents.

Implicit Types (w : TagInput) (e : TagEvent).

(** The two outcomes of [addTag]. *)
Lemma addTag_cases w email :
  addTag w email = w
  \/ (trim email <> [] /\ isValidEmail (trim email) = true
      /\ (trim email ∉ tags w)
      /\ addTag w email
         = {| inputValue := [];
              tags := tags w ++ [trim email];
              onChange_calls := onChange_calls w ++ [tags w ++ [trim email]] |}).
Proof.
  unfold addTag.
  destruct (trim email) as [|c t] eqn:E; [by left|]. simpl.
  destruct (isValidEmail (c :: t)) eqn:Hv; [|by left]. simpl.
  destruct (includes (tags w) (c :: t)) eqn:Hi; [by left|].
  right. repeat split; try done.
  intros Hin. apply includes_true in Hin. congruence.
Qed.

Lemma valid_trimmed_shape x :
  isValidEmail (trim x) = true -> email_shape (trim x).
Proof. intros H. apply isValidEmail_shape in H. by rewrite trim_idem in H. Qed.

Lemma pasted_emails_trimmed pastedText email :
  email ∈ pasted_emails pastedText ->
  exists x, x ∈ split_delims pastedText /\ email = trim x
            /\ isValidEmail email = true.
Proof.
  unfold pasted_emails. rewrite list_elem_of_In, filter_In, in_map_iff.
  intros [(x & <- & Hx) H]. apply andb_prop in H as [_ H].
  exists x. by rewrite list_elem_of_In.
Qed.

Lemma removeTag_delete w i : tags (removeTag w i) = delete i (tags w).
Proof. rewrite removeTag_tags. symmetry. apply delete_take_drop. Qed.

Lemma handleKeyDown_cases w key :
  handleKeyDown w key = addTag w (inputValue w)
  \/ handleKeyDown w key = removeTag w (length (tags w) - 1)
  \/ handleKeyDown w key = w.
Proof.
  unfold handleKeyDown.
  destruct (_ || _ || _); [by left|].
  destruct (_ && _ && _); [right; by left|right; by right].
Qed.

Lemma handleBlur_addTag w : handleBlur w = addTag w (inputValue w).
Proof.
  unfold handleBlur, addTag.
  by destruct (trim (inputValue w)).
Qed.

(** Either the chips and the calls of [onChange] are as before, or
    [onChange] was called once more, with the new chips. *)
Lemma handle_reports w e :
  (tags (handle w e) = tags w
   /\ onChange_calls (handle w e) = onChange_calls w)
  \/ onChange_calls (handle w e) = onChange_calls w ++ [tags (handle w e)].
Proof.
  assert (Hadd : forall x,
    (tags (addTag w x) = tags w /\ onChange_calls (addTag w x) = onChange_calls w)
    \/ onChange_calls (addTag w x) = onChange_calls w ++ [tags (addTag w x)]).
  { intros x. destruct (addTag_cases w x) as [-> | (_ & _ & _ & ->)]; auto. }
  destruct e as [v | key | pastedText | | index]; simpl.
  - by left.
  - destruct (handleKeyDown_cases w key) as [-> | [-> | ->]]; auto.
  - unfold handlePaste. destruct (0 <? _)%nat; auto.
  - rewrite handleBlur_addTag. apply Hadd.
  - by right.
Qed.

(** X1.  The widget is controlled: after any sequence of events the value
    the parent last received through [onChange] (or the value it passed
    at first, when [onChange] was never called) is the widget's chips. *)
Theorem parent_sees_chips (initial : list (list N)) (es : list TagEvent) :
  parent_value initial (handle_all (widget initial) es)
  = tags (handle_all (widget initial) es).
Proof.
  unfold handle_all.
  assert (H : forall w, parent_value initial w = tags w ->
                        parent_value initial (fold_left handle es w)
                        = tags (fold_left handle es w)).
  { induction es as [|e es IH]; intros w Hw; simpl; [done|].
    apply IH. unfold parent_value in *.
    destruct (handle_reports w e) as [[-> ->] | ->]; [done|].
    by rewrite last_snoc. }
  by apply H.
Qed.

Lemma handle_keeps_shape w e :
  Forall email_shape (tags w) -> Forall email_shape (tags (handle w e)).
Proof.
  intros Hw.
  assert (Hadd : forall x, Forall email_shape (tags (addTag w x))).
  { intros x. destruct (addTag_cases w x) as [-> | (_ & Hv & _ & ->)]; [done|].
    simpl. apply Forall_app. split; [done|].
    constructor; [by apply valid_trimmed_shape|constructor]. }
  assert (Hrm : forall i, Forall email_shape (tags (removeTag w i))).
  { intros i. rewrite removeTag_delete. by apply Forall_delete. }
  destruct e as [v | key | pastedText | | index]; simpl.
  - done.
  - destruct (handleKeyDown_cases w key) as [-> | [-> | ->]]; auto.
  - rewrite handlePaste_tags. apply Forall_app. split; [done|].
    apply Forall_forall. intros x Hx.
    rewrite list_elem_of_In, filter_In, <- list_elem_of_In in Hx.
    destruct Hx as [Hx _].
    apply pasted_emails_trimmed in Hx as (y & _ & -> & Hv).
    by apply valid_trimmed_shape.
  - rewrite handleBlur_addTag. apply Hadd.
  - apply Hrm.
Qed.

(** X2.  No event lets an ill-formed chip in: if every chip has the
    shape [local@domain.tld] (no white space, one [@], a dot inside the
    domain), it is still so after any sequence of events. *)
Theorem chips_keep_shape w (es : list TagEvent) :
  Forall email_shape (tags w) ->
  Forall email_shape (tags (handle_all w es)).
Proof.
  unfold handle_all. revert w.
  induction es as [|e es IH]; intros w Hw; simpl; [done|].
  apply IH. by apply handle_keeps_shape.
Qed.

Lemma chips_keep_shape_witness :
  Forall email_shape
    (tags (handle_all (widget [])
             [Change (js " a@b.co "); Blur; Paste (js "x y@z.io;bad@");
              Change (js "oops"); KeyDown key_Enter; ClickRemove 0])).
Proof.
  apply (chips_keep_shape (widget [])). simpl. constructor.
Defined.

Lemma handle_keeps_NoDup w e :
  NoDup (tags w) ->
  (forall pastedText, e = Paste pastedText -> NoDup (pasted_emails pastedText)) ->
  NoDup (tags (handle w e)).
Proof.
  intros Hw Hp.
  assert (Hadd : forall x, NoDup (tags (addTag w x))).
  { intros x. destruct (addTag_cases w x) as [-> | (_ & _ & Hn & ->)]; [done|].
    simpl. apply NoDup_app. split; [done|]. split.
    - intros y Hy Hy'. apply list_elem_of_singleton in Hy'. by subst.
    - apply NoDup_singleton. }
  assert (Hrm : forall i, NoDup (tags (removeTag w i))).
  { intros i. rewrite removeTag_delete.
    apply (sublist_NoDup _ (tags w)); [done|apply sublist_delete]. }
  destruct e as [v | key | pastedText | | index]; simpl.
  - done.
  - destruct (handleKeyDown_cases w key) as [-> | [-> | ->]]; auto.
  - apply handlePaste_NoDup; [done|]. by apply Hp.
  - rewrite handleBlur_addTag. apply Hadd.
  - apply Hrm.
Qed.

(** X3.  Typing, committing (Enter, comma, space, blur) and removing
    never create a duplicate chip; a paste does not either when it does
    not repeat an address itself. *)
Theorem chips_stay_distinct w (es : list TagEvent) :
  NoDup (tags w) ->
  (forall pastedText, Paste pastedText ∈ es -> NoDup (pasted_emails pastedText)) ->
  NoDup (tags (handle_all w es)).
Proof.
  unfold handle_all. revert w.
  induction es as [|e es IH]; intros w Hw Hp; simpl; [done|].
  apply IH.
  - apply handle_keeps_NoDup; [done|].
    intros t ->. apply Hp. apply list_elem_of_here.
  - intros t Ht. apply Hp. by apply list_elem_of_further.
Qed.

Lemma chips_stay_distinct_witness :
  NoDup
    (tags (handle_all (widget [js "a@b.co"])
             [Change (js "a@b.co"); KeyDown (js ","); Paste (js "a@b.co c@d.org");
              Change (js "c@d.org"); Blur])).
Proof.
  apply (chips_stay_distinct (widget [js "a@b.co"])).
  - simpl. apply NoDup_singleton.
  - intros t Ht. rewrite !elem_of_cons in Ht.
    destruct Ht as [Ht|[Ht|[Ht|[Ht|[Ht|Ht]]]]]; try discriminate Ht.
    + injection Ht as ->. vm_compute.
      apply NoDup_cons. split; [|apply NoDup_singleton].
      intros H. apply list_elem_of_singleton in H. discriminate H.
    + by apply elem_of_nil in Ht.
Defined.


Lemma commit_is_addTag w e : is_commit e -> handle w e = addTag w (inputValue w).
Proof.
  intros [-> | [-> | [-> | ->]]]; simpl; try apply handleBlur_addTag;
    unfold handleKeyDown;
    match goal with
    | |- (if ?b then _ else _) = _ =>
        replace b with true by (vm_compute; reflexivity)
    end; reflexivity.
Qed.

(** X4.  Enter, comma, space and blur commit the pending text in the
    same way.  When the trimmed text has the shape [local@domain.tld] and
    is not a chip yet, it becomes the last chip, the pending text is
    cleared and [onChange] receives the new chips; otherwise nothing
    changes and the pending text stays. *)
Theorem commit_pending_text w e :
  is_commit e ->
  (email_shape (trim (inputValue w)) /\ trim (inputValue w) ∉ tags w ->
   handle w e
   = {| inputValue := [];
        tags := tags w ++ [trim (inputValue w)];
        onChange_calls := onChange_calls w ++ [tags w ++ [trim (inputValue w)]] |})
  /\ (~ email_shape (trim (inputValue w)) \/ trim (inputValue w) ∈ tags w ->
      handle w e = w).
Proof.
  intros He. rewrite (commit_is_addTag w e He). split.
  - intros [Hs Hn].
    destruct (addTag_cases w (inputValue w)) as [Hw | (_ & _ & _ & ->)]; [|done].
    exfalso. revert Hw. unfold addTag.
    assert (Hv : isValidEmail (trim (inputValue w)) = true).
    { apply isValidEmail_shape. by rewrite trim_idem. }
    rewrite Hv. destruct Hs as (a & b & c & E & [Ha _] & _).
    destruct (trim (inputValue w)) as [|x t] eqn:Et.
    { destruct a; discriminate E. }
    simpl. destruct (includes (tags w) (x :: t)) eqn:Hi.
    { apply includes_true in Hi. done. }
    simpl. intros Hw. apply (f_equal tags) in Hw. simpl in Hw.
    apply (f_equal length) in Hw. rewrite length_app in Hw. simpl in Hw. lia.
  - intros H.
    destruct (addTag_cases w (inputValue w)) as [Hw | (_ & Hv & Hn & _)]; [done|].
    destruct H as [H | H]; [|done].
    exfalso. apply H. by apply valid_trimmed_shape.
Qed.

Lemma commit_pending_text_witness :
  handle (setInputValue (widget [js "a@b.co"]) (js "  c@d.org ")) Blur
  = {| inputValue := [];
       tags := [js "a@b.co"; js "c@d.org"];
       onChange_calls := [[js "a@b.co"; js "c@d.org"]] |}
  /\ handle (setInputValue (widget [js "a@b.co"]) (js "a@b.co")) (KeyDown (js ","))
     = setInputValue (widget [js "a@b.co"]) (js "a@b.co").
Proof.
  split.
  - destruct (commit_pending_text
                (setInputValue (widget [js "a@b.co"]) (js "  c@d.org ")) Blur)
      as [H _]; [right; right; right; reflexivity|].
    apply H. split.
    + apply isValidEmail_shape. vm_compute. reflexivity.
    + vm_compute. intros Hin. apply list_elem_of_singleton in Hin. discriminate Hin.
  - destruct (commit_pending_text
                (setInputValue (widget [js "a@b.co"]) (js "a@b.co"))
                (KeyDown (js ","))) as [_ H]; [right; left; reflexivity|].
    apply H. right. vm_compute. apply list_elem_of_here.
Defined.

Lemma filter_all_included (known l : list (list N)) :
  (forall email, email ∈ l -> email ∈ known) ->
  List.filter (fun email => negb (includes known email)) l = [].
Proof.
  induction l as [|x l IH]; intros H; [done|]. simpl.
  assert (Hx : includes known x = true)
    by (apply includes_true, H, list_elem_of_here).
  rewrite Hx. simpl. apply IH. intros y Hy. apply H.
  by apply list_elem_of_further.
Qed.

(** X5.  A paste that brings no valid address that is not a chip already
    changes nothing, the pending text included. *)
Theorem handlePaste_nothing_new w pastedText :
  (forall email, email ∈ pasted_emails pastedText -> email ∈ tags w) ->
  handlePaste w pastedText = w.
Proof.
  intros H. unfold handlePaste. fold (pasted_emails pastedText).
  by rewrite (filter_all_included (tags w) (pasted_emails pastedText) H).
Qed.

Lemma handlePaste_nothing_new_witness :
  handlePaste (setInputValue (widget [js "a@b.co"]) (js "pending"))
    (js "a@b.co; not-an-address ,")
  = setInputValue (widget [js "a@b.co"]) (js "pending").
Proof.
  apply handlePaste_nothing_new. vm_compute. intros email H. exact H.
Defined.

(** X6.  Pasting the same text a second time changes nothing. *)
Theorem handlePaste_twice w pastedText :
  handlePaste (handlePaste w pastedText) pastedText = handlePaste w pastedText.
Proof.
  assert (H : forall email, email ∈ pasted_emails pastedText ->
                            email ∈ tags (handlePaste w pastedText))
    by (intros email; apply handlePaste_keeps_all).
  revert H. generalize (handlePaste w pastedText) as w1. intros w1 H.
  unfold handlePaste. fold (pasted_emails pastedText).
  by rewrite (filter_all_included (tags w1) (pasted_emails pastedText) H).
Qed.

Lemma is_delim_space c : is_delim c = false -> is_space c = false.
Proof.
  unfold is_delim. intros H.
  apply orb_false_elim in H as [H _]. apply orb_false_elim in H as [H _].
  by apply orb_false_elim in H as [_ H].
Qed.

Lemma split_go_no_delim s : forall cur in_run,
  Forall (fun c => is_delim c = false) cur ->
  Forall (Forall (fun c => is_delim c = false)) (split_go s cur in_run).
Proof.
  induction s as [|c s IH]; intros cur in_run Hcur; simpl.
  - constructor; [by apply List.Forall_rev|constructor].
  - destruct (is_delim c) eqn:Hc.
    + destruct in_run; [by apply IH|].
      constructor; [by apply List.Forall_rev|by apply IH].
    + apply IH. by constructor.
Qed.

Lemma trimStart_no_space s :
  Forall (fun c => is_space c = false) s -> trimStart s = s.
Proof. destruct 1 as [|c s Hc _]; simpl; [done|by rewrite Hc]. Qed.

Lemma trim_no_space s : Forall (fun c => is_space c = false) s -> trim s = s.
Proof.
  intros H. unfold trim, trimEnd.
  rewrite (trimStart_no_space s H).
  rewrite trimStart_no_space by (by apply List.Forall_rev).
  apply rev_involutive.
Qed.

(** X7.  An address added by a paste is one of the pieces between the
    runs of delimiters, taken as it is: it holds no comma, no semicolon
    and no white space, and it has the shape [local@domain.tld]. *)
Theorem pasted_emails_are_pieces pastedText email :
  email ∈ pasted_emails pastedText ->
  email ∈ split_delims pastedText
  /\ Forall (fun c => is_delim c = false) email
  /\ email_shape email.
Proof.
  intros H. apply pasted_emails_trimmed in H as (x & Hx & -> & Hv).
  assert (Hnd : Forall (fun c => is_delim c = false) x).
  { pose proof (split_go_no_delim pastedText [] false (List.Forall_nil _)) as HF.
    rewrite Forall_forall in HF. by apply HF. }
  assert (Ht : trim x = x).
  { apply trim_no_space. eapply Forall_impl; [exact Hnd|].
    intros c. apply is_delim_space. }
  apply valid_trimmed_shape in Hv. rewrite Ht in Hv |- *. done.
Qed.

Lemma pasted_emails_are_pieces_witness :
  js "c@d.org" ∈ split_delims (js " a@b.co;;c@d.org, bad@")
  /\ Forall (fun c => is_delim c = false) (js "c@d.org")
  /\ email_shape (js "c@d.org").
Proof.
  apply pasted_emails_are_pieces. vm_compute.
  apply list_elem_of_further, list_elem_of_here.
Defined.

Lemma backspace_removes_last w :
  inputValue w = [] -> tags w <> [] ->
  handleKeyDown w key_Backspace = removeTag w (length (tags w) - 1).
Proof.
  intros Hi Ht. unfold handleKeyDown.
  replace (bool_decide (key_Backspace = key_Enter)
           || bool_decide (key_Backspace = js ",")
           || bool_decide (key_Backspace = js " "))
    with false by (vm_compute; reflexivity).
  rewrite bool_decide_eq_true_2 by reflexivity. rewrite Hi. simpl.
  destruct (tags w); [done|]. reflexivity.
Qed.

(** X8.  Backspace undoes a commit: after [addTag] has added a chip the
    pending text is empty, and Backspace gives the chips of before. *)
Theorem backspace_undoes_addTag w email :
  tags (addTag w email) <> tags w ->
  tags (handleKeyDown (addTag w email) key_Backspace) = tags w.
Proof.
  intros Hch.
  destruct (addTag_cases w email) as [Hw | (_ & _ & _ & Hw)]; rewrite Hw in *;
    [done|].
  rewrite backspace_removes_last; [|done|by destruct (tags w)].
  rewrite removeTag_last. simpl. apply removelast_last.
Qed.

Lemma backspace_undoes_addTag_witness :
  tags (handleKeyDown (addTag (widget [js "a@b.co"]) (js "c@d.org")) key_Backspace)
  = [js "a@b.co"].
Proof.
  apply (backspace_undoes_addTag (widget [js "a@b.co"]) (js "c@d.org")).
  vm_compute. discriminate.
Defined.

(** X9.  Removing at an index past the last chip leaves the chips as
    they are, and still calls [onChange] with them. *)
Theorem removeTag_out_of_range w i :
  (length (tags w) <= i)%nat ->
  tags (removeTag w i) = tags w
  /\ onChange_calls (removeTag w i) = onChange_calls w ++ [tags w].
Proof.
  intros Hi.
  assert (H : tags (removeTag w i) = tags w).
  { rewrite removeTag_tags, take_ge, drop_ge by lia. apply app_nil_r. }
  split; [done|].
  change (onChange_calls (removeTag w i))
    with (onChange_calls w ++ [tags (removeTag w i)]).
  by rewrite H.
Qed.

Lemma removeTag_out_of_range_witness :
  tags (removeTag (widget [js "a@b.co"]) 1) = [js "a@b.co"]
  /\ onChange_calls (removeTag (widget [js "a@b.co"]) 1) = [[js "a@b.co"]].
Proof.
  apply (removeTag_out_of_range (widget [js "a@b.co"]) 1). simpl. lia.
Defined.

End TagInputEvents.

(** ** The persistence helpers: failures, other keys, clearing *)

Section PersistenceMore.

Implicit Types (w : World) (v data : value).

Lemma getStoredData_console w msg :
  getStoredData (console_error w msg) = getStoredData w.
Proof. reflexivity. Qed.

(** X10.  [setStoredData] never raises.  When the write cannot be done
    (no [window], storage denied or full) the stored items are left as
    they were, so that a later load gives what it gave before; a write
    that raised is reported once on the console. *)
Theorem setStoredData_failure w data :
  has_window w = false \/ storage_denied w = true \/ storage_full w = true ->
  exists w',
    setStoredData w data = Ok w'
    /\ localStorage w' = localStorage w
    /\ getStoredData w' = getStoredData w
    /\ console w'
       = if has_window w
         then console w ++ [js "Failed to save data to localStorage:"]
         else console w.
Proof.
  intros H. unfold setStoredData, setItem.
  destruct (has_window w) eqn:Hw; simpl; [|by exists w].
  destruct H as [H | [H | H]]; [done| |].
  - rewrite H. simpl. eexists. repeat split.
  - rewrite H. destruct (storage_denied w); simpl; eexists; repeat split.
Qed.

Lemma setStoredData_failure_witness :
  let w := {| has_window := true; storage_denied := false; storage_full := true;
              localStorage := {[ STORAGE_KEY := js "{}" ]}; console := [] |} in
  exists w',
    setStoredData w (draft_object sample_draft) = Ok w'
    /\ localStorage w' = localStorage w
    /\ getStoredData w' = Ok (Obj []).
Proof.
  intros w.
  destruct (setStoredData_failure w (draft_object sample_draft))
    as (w' & H1 & H2 & H3 & _); [right; right; reflexivity|].
  exists w'. split; [exact H1|]. split; [exact H2|]. rewrite H3. reflexivity.
Defined.

(** X11.  The helpers own one key: whatever [setStoredData] and
    [clearStoredData] do, every other item of the storage is untouched. *)
Theorem helpers_touch_one_key w data (key : list N) :
  key <> STORAGE_KEY ->
  exists w1 w2,
    setStoredData w data = Ok w1
    /\ clearStoredData w = Ok w2
    /\ localStorage w1 !! key = localStorage w !! key
    /\ localStorage w2 !! key = localStorage w !! key.
Proof.
  intros Hk. unfold setStoredData, clearStoredData, setItem, removeItem.
  destruct (has_window w); simpl; [|by exists w, w].
  destruct (storage_denied w); simpl; [by eexists _, _|].
  destruct (storage_full w); simpl; eexists _, _;
    (split; [reflexivity|]); (split; [reflexivity|]); simpl;
    rewrite ?lookup_insert_ne, ?lookup_delete_ne by done; done.
Qed.

Lemma helpers_touch_one_key_witness :
  let w := browser {[ js "theme" := js "dark" ]} in
  exists w1 w2,
    setStoredData w (draft_object sample_draft) = Ok w1
    /\ clearStoredData w = Ok w2
    /\ localStorage w1 !! js "theme" = Some (js "dark")
    /\ localStorage w2 !! js "theme" = Some (js "dark").
Proof.
  intros w.
  destruct (helpers_touch_one_key w (draft_object sample_draft) (js "theme"))
    as (w1 & w2 & H1 & H2 & H3 & H4); [discriminate|].
  exists w1, w2. rewrite H3, H4. repeat split; assumption.
Defined.

Lemma clearStoredData_load w :
  exists w', clearStoredData w = Ok w' /\ getStoredData w' = Ok (Obj []).
Proof.
  unfold clearStoredData, removeItem.
  destruct (has_window w) eqn:Hw; simpl.
  - destruct (storage_denied w) eqn:Hd; simpl; eexists; (split; [reflexivity|]).
    + unfold getStoredData, getItem. simpl. by rewrite Hw, Hd.
    + unfold getStoredData, getItem. simpl. rewrite Hw, Hd. simpl.
      by rewrite lookup_delete_eq.
  - exists w. split; [done|]. unfold getStoredData. by rewrite Hw.
Qed.

(** X12.  [clearStoredData] never raises, and whatever the browser does
    a load that follows it gives the empty record, from which the form
    starts with the template. *)
Theorem clear_then_load w :
  exists w',
    clearStoredData w = Ok w'
    /\ getStoredData w' = Ok (Obj [])
    /\ defaultValues (Obj []) = Ok (form_values template_form).
Proof.
  destruct (clearStoredData_load w) as (w' & H1 & H2). by exists w'.
Qed.



End PersistenceMore.

(** ** The form: clearing, validation, payloads, the mutation *)

Section FormMore.

Implicit Types (c : Controller) (data : FormData) (storedData : value).


(** X14.  Clear All Data never fails and leaves the page as a first
    mount on an empty storage would: the template in the form, no stored
    file name, editing off, and a storage that loads as the empty record.
    What is in flight (fetches, sends, the observed mutation) stays. *)
Theorem handleClearStorage_resets c :
  exists c',
    handleClearStorage c = Ok c'
    /\ formValues c' = template_form
    /\ storedFileName c' = None
    /\ isEditing c' = false
    /\ refreshKey c' = S (refreshKey c)
    /\ getStoredData (world c') = Ok (Obj [])
    /\ defaultValues (Obj []) = Ok (form_values (formValues c'))
    /\ mount_storedFileName (Obj []) = Ok None
    /\ fetches c' = fetches c /\ sends c' = sends c /\ observed c' = observed c.
Proof.
  unfold handleClearStorage.
  destruct (clearStoredData_load (world c)) as (w' & -> & Hl). simpl.
  eexists. split; [reflexivity|]. simpl. by rewrite Hl.
Qed.



(** X16.  A file chosen in the form wins over the stored attachment:
    whatever the storage holds and whatever [fetch] would do, exactly one
    payload is sent, at once, and it carries the chosen file as it is. *)
Theorem onSubmit_new_file auth storedData data fetch_blob file rest :
  data_resume data = Some (file :: rest) ->
  onSubmit auth storedData data
  = Mutate (text_entries auth data ++ [(js "resume", Attachment file)]) Done
  /\ exists formData,
       sent fetch_blob (onSubmit auth storedData data) = [formData]
       /\ attachment formData = Some file.
Proof.
  intros H. unfold onSubmit. rewrite H. split; [reflexivity|].
  eexists. split; reflexivity.
Qed.

Lemma onSubmit_new_file_witness :
  let file := {| file_name := js "cv.txt"; file_type := js "text/plain";
                 file_bits := [104; 105] |} in
  let data := {| data_recipients := [js "a@b.co"]; data_subject := js "Hi";
                 data_body := js "0123456789"; data_resume := Some [file] |} in
  exists formData,
    sent (fun _ => None)
      (onSubmit (auth_data sample_controller) (draft_object sample_draft) data)
    = [formData]
    /\ attachment formData = Some file.
Proof.
  intros file data.
  apply (onSubmit_new_file (auth_data sample_controller)
           (draft_object sample_draft) data (fun _ => None) file []).
  reflexivity.
Defined.

(** The shapes [onSubmit] can take. *)
Lemma onSubmit_cases auth storedData data :
  (exists file,
     onSubmit auth storedData data
     = Mutate (text_entries auth data ++ [(js "resume", Attachment file)]) Done)
  \/ onSubmit auth storedData data = Mutate (text_entries auth data) Done
  \/ (exists e, storedData = Null /\ onSubmit auth storedData data = Raise e)
  \/ (exists d n,
        stored_attachment storedData = true
        /\ prop storedData resumeData = Ok (Some d)
        /\ prop storedData resumeName = Ok (Some n)
        /\ onSubmit auth storedData data
           = Fetch (to_string d)
               (fun blob =>
                  Mutate (text_entries auth data
                          ++ [(js "resume",
                               Attachment {| file_name := to_string n;
                                             file_type := js "application/pdf";
                                             file_bits := blob |})]) Done)).
Proof.
  assert (Hnull : forall f e, prop storedData f = Throw e -> storedData = Null)
    by (intros f e; destruct storedData; cbn [prop]; congruence).
  unfold onSubmit, stored_attachment. cbv zeta.
  fold (text_entries auth data).
  destruct (data_resume data) as [[|file rest]|]; [|left; by exists file|].
  all: destruct (prop storedData resumeData) as [[d|]|e] eqn:Hd;
    [|right; by left|right; right; left; exists e; split; [by eapply Hnull|done]].
  all: destruct (truthy d) eqn:Htd; [|right; by left].
  all: destruct (prop storedData resumeName) as [[n|]|e] eqn:Hn;
    [|right; by left|apply Hnull in Hn; subst; discriminate Hd].
  all: destruct (truthy n) eqn:Htn; [|right; by left].
  all: right; right; right; by exists d, n.
Qed.

(** X17.  A submission sends at most one payload, and every payload
    starts with the same five text entries: the sender's email and
    password, the recipients joined by commas, the subject and the body;
    a sixth entry, if any, is the attached file. *)
Theorem onSubmit_payload auth storedData data fetch_blob :
  (length (sent fetch_blob (onSubmit auth storedData data)) <= 1)%nat
  /\ forall formData,
       formData ∈ sent fetch_blob (onSubmit auth storedData data) ->
       formData = text_entries auth data
       \/ exists file,
            formData = text_entries auth data ++ [(js "resume", Attachment file)].
Proof.
  destruct (onSubmit_cases auth storedData data)
    as [[file ->] | [-> | [(e & _ & ->) | (d & n & _ & _ & _ & ->)]]]; simpl.
  - split; [lia|]. intros p Hp. apply list_elem_of_singleton in Hp as ->. eauto.
  - split; [lia|]. intros p Hp. apply list_elem_of_singleton in Hp as ->. eauto.
  - split; [lia|]. intros p Hp. by apply elem_of_nil in Hp.
  - destruct (fetch_blob (to_string d)); simpl.
    + split; [lia|]. intros p Hp. apply list_elem_of_singleton in Hp as ->. eauto.
    + split; [lia|]. intros p Hp. by apply elem_of_nil in Hp.
Qed.

Lemma onSubmit_payload_witness :
  let formData :=
    text_entries (auth_data sample_controller) (formValues sample_controller)
    ++ [(js "resume",
         Attachment {| file_name := js "resume.pdf";
                       file_type := js "application/pdf";
                       file_bits := sample_blob |})] in
  formData
  = text_entries (auth_data sample_controller) (formValues sample_controller)
  \/ exists file,
       formData
       = text_entries (auth_data sample_controller) (formValues sample_controller)
         ++ [(js "resume", Attachment file)].
Proof.
  intros formData.
  destruct (onSubmit_payload (auth_data sample_controller)
              (draft_object sample_draft) (formValues sample_controller)
              (fun _ => Some sample_blob)) as [_ H].
  apply H. vm_compute. apply list_elem_of_here.
Defined.




End FormMore.

(** ** The mutation when no attachment is stored *)

Section SingleSend.

Implicit Types (c : Controller).




End SingleSend.

(** ** The auto-save effect *)

Section AutoSave.

Implicit Types (c : Controller) (w : World) (data : FormData) (d : Draft).

(** The object literal of the branch without a file, over a stored draft
    or the empty record, is the draft with the text fields of the form
    and the attachment that was stored. *)
Lemma spread_over_draft data d :
  Obj (set_prop (field_key recipients) (Arr (Str <$> data_recipients data))
         (fold_left (fun acc kv => set_prop (fst kv) (snd kv) acc)
            [(field_key subject, Str (data_subject data));
             (field_key body, Str (data_body data))]
            (own_entries (draft_object d))))
  = draft_object (merge_draft data d).
Proof.
  destruct d as [r s b [rd|] [rn|]]; vm_compute; reflexivity.
Qed.

Lemma spread_over_empty data :
  Obj (set_prop (field_key recipients) (Arr (Str <$> data_recipients data))
         (fold_left (fun acc kv => set_prop (fst kv) (snd kv) acc)
            [(field_key subject, Str (data_subject data));
             (field_key body, Str (data_body data))]
            (own_entries (Obj []))))
  = draft_object (merge_draft data empty_draft).
Proof. vm_compute. reflexivity. Qed.

Lemma holds_draft_load w d :
  has_window w = true -> storage_denied w = false -> holds_draft w d ->
  (getStoredData w = Ok (Obj []) /\ d = empty_draft)
  \/ getStoredData w = Ok (draft_object d).
Proof.
  intros Hw Hd [[Hn ->] | Hs].
  - left. split; [|done]. unfold getStoredData, getItem.
    rewrite Hw, Hd. simpl. by rewrite Hn.
  - right. apply getStoredData_parsed with (text := stringify (draft_object d));
      try done. apply parse_stringify, draft_object_plain.
Qed.

Lemma store_load w d :
  has_window w = true -> storage_denied w = false ->
  getStoredData (store w d) = Ok (draft_object d).
Proof.
  intros Hw Hd.
  apply getStoredData_parsed with (text := stringify (draft_object d)); try done.
  - simpl. apply lookup_insert_eq.
  - apply parse_stringify, draft_object_plain.
Qed.

Lemma store_store w d : store (store w d) d = store w d.
Proof. unfold store, set_items. simpl. by rewrite insert_insert_eq. Qed.

Lemma setStoredData_store w d :
  working w -> setStoredData w (draft_object d) = Ok (store w d).
Proof.
  intros (Hw & Hd & Hf). unfold setStoredData, setItem. by rewrite Hw, Hd, Hf.
Qed.

Lemma autoSave_no_file readAsDataURL w storedData data d name :
  working w -> no_new_file data ->
  (storedData = Obj [] /\ d = empty_draft) \/ storedData = draft_object d ->
  autoSave readAsDataURL w storedData data name
  = Ok (store w (merge_draft data d), name).
Proof.
  intros Hw Hn Hs. unfold autoSave. cbv zeta.
  assert (E : Obj (set_prop (field_key recipients) (Arr (Str <$> data_recipients data))
                     (fold_left (fun acc kv => set_prop (fst kv) (snd kv) acc)
                        [(field_key subject, Str (data_subject data));
                         (field_key body, Str (data_body data))]
                        (own_entries storedData)))
              = draft_object (merge_draft data d)).
  { destruct Hs as [[-> ->] | ->];
      [apply spread_over_empty|apply spread_over_draft]. }
  rewrite E, (setStoredData_store w _ Hw).
  by destruct Hn as [-> | ->].
Qed.

Lemma autoSave_file readAsDataURL w storedData data name file rest url :
  working w -> data_resume data = Some (file :: rest) ->
  readAsDataURL file = Some url ->
  autoSave readAsDataURL w storedData data name
  = Ok (store w (draft_with_file data url file), Some (file_name file)).
Proof.
  intros Hw Hr Hu. unfold autoSave. cbv zeta. rewrite Hr, Hu.
  change (Obj _) with (draft_object (draft_with_file data url file)).
  by rewrite (setStoredData_store w _ Hw).
Qed.

Lemma working_store w d : working w -> working (store w d).
Proof. done. Qed.


Lemma set_world_same c : set_world c (world c) (storedFileName c) = c.
Proof. by destruct c. Qed.

Lemma autoSaveEffect_no_file readAsDataURL c d :
  working (world c) -> holds_draft (world c) d -> no_new_file (formValues c) ->
  autoSaveEffect readAsDataURL c
  = Ok (set_world c (store (world c) (merge_draft (formValues c) d))
          (storedFileName c)).
Proof.
  intros Hw Hh Hn. unfold autoSaveEffect.
  pose proof Hw as (Hwin & Hden & _).
  destruct (holds_draft_load _ _ Hwin Hden Hh) as [[Hl ->] | Hl]; rewrite Hl; simpl.
  - by rewrite (autoSave_no_file _ _ (Obj []) _ empty_draft _ Hw Hn) by auto.
  - by rewrite (autoSave_no_file _ _ (draft_object d) _ d _ Hw Hn) by auto.
Qed.

Lemma getStoredData_is_Ok w : exists storedData, getStoredData w = Ok storedData.
Proof.
  unfold getStoredData, getItem, JSON_parse.
  destruct (has_window w); simpl; [|by eexists].
  destruct (storage_denied w); simpl; [by eexists|].
  destruct (localStorage w !! STORAGE_KEY) as [text|]; simpl; [|by eexists].
  destruct (str_truthy text); [|by eexists].
  destruct (Json.parse text); simpl; by eexists.
Qed.

Lemma autoSaveEffect_file readAsDataURL c file rest url :
  working (world c) -> data_resume (formValues c) = Some (file :: rest) ->
  readAsDataURL file = Some url ->
  autoSaveEffect readAsDataURL c
  = Ok (set_world c (store (world c) (draft_with_file (formValues c) url file))
          (Some (file_name file))).
Proof.
  intros Hw Hr Hu. unfold autoSaveEffect.
  destruct (getStoredData_is_Ok (world c)) as (s & ->). simpl.
  by rewrite (autoSave_file _ _ s _ _ file rest url Hw Hr Hu).
Qed.

(** X20.  Editing the text fields never loses the stored attachment:
    with no file in the form, the auto-save over a stored draft (or over
    nothing) stores the recipients, subject and body of the form and the
    attachment that was stored, and leaves the form and the shown file
    name alone. *)
Theorem autoSave_keeps_attachment readAsDataURL c d :
  working (world c) -> holds_draft (world c) d -> no_new_file (formValues c) ->
  exists c',
    autoSaveEffect readAsDataURL c = Ok c'
    /\ getStoredData (world c')
       = Ok (draft_object (merge_draft (formValues c) d))
    /\ formValues c' = formValues c
    /\ storedFileName c' = storedFileName c.
Proof.
  intros Hw Hh Hn. eexists. split; [by apply autoSaveEffect_no_file|].
  simpl. split; [|done]. apply store_load; apply Hw.
Qed.

Lemma autoSave_keeps_attachment_witness :
  exists c',
    autoSaveEffect (fun _ => None) sample_controller = Ok c'
    /\ getStoredData (world c')
       = Ok (draft_object (merge_draft (formValues sample_controller) sample_draft)).
Proof.
  destruct (autoSave_keeps_attachment (fun _ => None) sample_controller sample_draft)
    as (c' & H1 & H2 & _).
  - repeat split.
  - right. reflexivity.
  - left. reflexivity.
  - exists c'. split; assumption.
Defined.



Lemma failed_read_changes_nothing readAsDataURL c file rest :
  data_resume (formValues c) = Some (file :: rest) ->
  readAsDataURL file = None ->
  autoSaveEffect readAsDataURL c = Ok c.
Proof.
  intros Hr Hu. unfold autoSaveEffect.
  destruct (getStoredData_is_Ok (world c)) as (s & ->). simpl.
  unfold autoSave. cbv zeta. rewrite Hr, Hu. simpl.
  by rewrite set_world_same.
Qed.

(** X22.  When the file cannot be read nothing is stored and nothing is
    shown: the page stays as it was. *)
Theorem autoSave_failed_read readAsDataURL c file rest :
  data_resume (formValues c) = Some (file :: rest) ->
  readAsDataURL file = None ->
  autoSaveEffect readAsDataURL c = Ok c.
Proof.
  intros Hr Hu. by eapply failed_read_changes_nothing.
Qed.

Lemma autoSave_failed_read_witness :
  autoSaveEffect (fun _ => None) sample_with_file = Ok sample_with_file.
Proof.
  apply (autoSave_failed_read (fun _ => None) sample_with_file sample_file []);
    reflexivity.
Defined.

(** X23.  The auto-save is idempotent: in a browser whose storage works
    and holds a draft or nothing, the effect run again right after
    itself changes nothing. *)
Theorem autoSave_twice readAsDataURL c d :
  working (world c) -> holds_draft (world c) d ->
  exists c1,
    autoSaveEffect readAsDataURL c = Ok c1
    /\ autoSaveEffect readAsDataURL c1 = Ok c1.
Proof.
  intros Hw Hh.
  assert (Hno : no_new_file (formValues c) ->
    exists c1, autoSaveEffect readAsDataURL c = Ok c1
               /\ autoSaveEffect readAsDataURL c1 = Ok c1).
  { intros Hn.
    exists (set_world c (store (world c) (merge_draft (formValues c) d))
              (storedFileName c)).
    split; [by apply autoSaveEffect_no_file|].
    rewrite (autoSaveEffect_no_file _ _ (merge_draft (formValues c) d));
      [|exact Hw|right; simpl; apply lookup_insert_eq|exact Hn].
    simpl. unfold set_world. simpl. by rewrite store_store. }
  destruct (data_resume (formValues c)) as [[|file rest]|] eqn:Hr.
  - apply Hno. by right.
  - destruct (readAsDataURL file) as [url|] eqn:Hu.
    + exists (set_world c (store (world c) (draft_with_file (formValues c) url file))
                (Some (file_name file))).
      split; [by eapply autoSaveEffect_file|].
      rewrite (autoSaveEffect_file _ _ file rest url); [|exact Hw|exact Hr|exact Hu].
      simpl. unfold set_world. simpl. by rewrite store_store.
    + exists c. split; by eapply failed_read_changes_nothing.
  - apply Hno. by left.
Qed.

Lemma autoSave_twice_witness :
  exists c1,
    autoSaveEffect (fun _ => None) sample_controller = Ok c1
    /\ autoSaveEffect (fun _ => None) c1 = Ok c1.
Proof.
  apply (autoSave_twice (fun _ => None) sample_controller sample_draft).
  - repeat split.
  - right. reflexivity.
Defined.




(** X25.  A chosen file comes back on a later submission.  Once the
    auto-save has stored it, a submit with no file in the form sends one
    payload whose attachment has the name and the content of the chosen
    file (when [fetch] decodes what the reader encoded and neither the
    data URL nor the name is empty); its type is [application/pdf]
    whatever the type of the chosen file. *)
Theorem stored_file_is_sent readAsDataURL fetch_blob c file rest url auth data :
  working (world c) ->
  data_resume (formValues c) = Some (file :: rest) ->
  readAsDataURL file = Some url -> url <> [] -> file_name file <> [] ->
  fetch_blob url = Some (file_bits file) ->
  no_new_file data ->
  exists c' storedData formData,
    autoSaveEffect readAsDataURL c = Ok c'
    /\ getStoredData (world c') = Ok storedData
    /\ sent fetch_blob (onSubmit auth storedData data) = [formData]
    /\ attachment formData
       = Some {| file_name := file_name file;
                 file_type := js "application/pdf";
                 file_bits := file_bits file |}.
Proof.
  intros Hw Hr Hu Hurl Hname Hf Hn.
  assert (Ht1 : str_truthy url = true) by (by destruct url).
  assert (Ht2 : str_truthy (file_name file) = true)
    by (by destruct (file_name file)).
  exists (set_world c (store (world c) (draft_with_file (formValues c) url file))
            (Some (file_name file))),
         (draft_object (draft_with_file (formValues c) url file)),
         (text_entries auth data
          ++ [(js "resume",
               Attachment {| file_name := file_name file;
                             file_type := js "application/pdf";
                             file_bits := file_bits file |})]).
  split; [by eapply autoSaveEffect_file|].
  split; [simpl; apply store_load; apply Hw|].
  destruct (draft_object_fields (draft_with_file (formValues c) url file))
    as (_ & _ & _ & Hd & Hm).
  split; [|reflexivity].
  unfold onSubmit. cbv zeta. fold (text_entries auth data). rewrite Hd, Hm.
  cbn [draft_with_file draft_resumeData draft_resumeName fmap option_fmap
       option_map truthy to_string].
  rewrite Ht1, Ht2.
  destruct Hn as [-> | ->]; cbn [sent]; by rewrite Hf.
Qed.

Lemma stored_file_is_sent_witness :
  exists c' storedData formData,
    autoSaveEffect sample_reader sample_with_file = Ok c'
    /\ getStoredData (world c') = Ok storedData
    /\ sent (fun _ => Some [37; 80; 68; 70])
         (onSubmit (auth_data sample_controller) storedData
            (formValues sample_controller))
       = [formData]
    /\ attachment formData = Some sample_file.
Proof.
  apply (stored_file_is_sent sample_reader (fun _ => Some [37; 80; 68; 70])
           sample_with_file sample_file []
           (js "data:application/pdf;base64,JVBERg==")
           (auth_data sample_controller) (formValues sample_controller)).
  - repeat split.
  - reflexivity.
  - reflexivity.
  - discriminate.
  - discriminate.
  - reflexivity.
  - left. reflexivity.
Defined.

End AutoSave.

(** ** Reloading the page *)

Section Reload.

Implicit Types (c : Controller).



End Reload.

(** ** The shape of a valid address *)

Section EmailShape.

(** X27.  [isValidEmail] accepts exactly the strings that, once trimmed,
    read [local@domain.tld]: three non-empty parts without white space
    and without [@], an [@] after the first and a dot after the second.
    So an accepted address holds one [@] and no white space, while dots
    are free in every part. *)
Theorem isValidEmail_iff (email : list N) :
  isValidEmail email = true
  <-> exists a b c,
        trim email = a ++ 64 :: b ++ 46 :: c
        /\ a <> [] /\ b <> [] /\ c <> []
        /\ Forall (fun x => is_space x = false /\ x <> 64) (a ++ b ++ c).
Proof.
  assert (Hcls : forall x, not_space_at x = true <-> is_space x = false /\ x <> 64).
  { intros x. unfold not_space_at. rewrite negb_true_iff, orb_false_iff.
    by rewrite N.eqb_neq. }
  rewrite isValidEmail_shape. unfold email_shape, run_of. split.
  - intros (a & b & c & E & [Ha Fa] & [Hb Fb] & [Hc Fc]).
    exists a, b, c. repeat split; try done.
    rewrite !Forall_app. repeat split;
      (eapply Forall_impl; [eassumption|intros x; apply Hcls]).
  - intros (a & b & c & E & Ha & Hb & Hc & HF).
    rewrite !Forall_app in HF. destruct HF as (Fa & Fb & Fc).
    exists a, b, c. repeat split; try done;
      (eapply Forall_impl; [eassumption|intros x; apply Hcls]).
Qed.

Lemma isValidEmail_iff_witness :
  exists a b c,
    trim (js " a@b.co ") = a ++ 64 :: b ++ 46 :: c
    /\ a <> [] /\ b <> [] /\ c <> []
    /\ Forall (fun x => is_space x = false /\ x <> 64) (a ++ b ++ c).
Proof.
  apply (isValidEmail_iff (js " a@b.co ")). vm_compute. reflexivity.
Defined.

End EmailShape.
